(** * Atlas FFI callback bridge ([examples/ffi/c_callback_example.c])

    A shallow embedding of the C callback library and the proofs of its
    specification.

    - A C [double] is a primitive binary64 float ([PrimFloat.float]); its
      operations are the kernel's, specified bit for bit by [SpecFloat]
      through [FloatAxioms].  Arithmetic is the C abstract machine's with
      doubles evaluated as doubles: round to nearest even, one rounding per
      operation, no excess precision and no contraction into fused
      multiply-add.
    - A C [int] is a [Z]; a loop counter stays below its bound, so it never
      wraps.
    - A callback is a function of the host's state: it takes its arguments
      and the host state and gives its result and the next host state.  In
      [map_array] that state includes the buffer, which the callback may
      hold a pointer to.
    - The library's functions run in a state monad over a [world]: the host
      state and a log.  The log records, in order, what the library does
      that can be observed from outside (the lines it prints, the callbacks
      it invokes with their arguments and results) and, as ghost events,
      the floating-point divisions it executes with their operands. *)

From Stdlib Require Import ZArith String Floats Lia.
From stdpp Require Import base list.

Set Warnings "-inexact-float".

Local Open Scope Z_scope.

(** ** Data model *)

(** An argument of a [printf] call. *)
Inductive carg : Type :=
| AD (x : float)
| AI (n : Z).

Inductive event : Type :=
| Stdout (fmt : string) (args : list carg)   (* printf(fmt, args...) *)
| Stderr (fmt : string)                      (* fprintf(stderr, fmt) *)
| CallD (name : string) (x r : float)        (* r = name(x), a double_callback_t *)
| CallDD (name : string) (a b r : float)     (* r = name(a, b), a binary_callback_t *)
| CallI (name : string) (n r : Z)            (* r = name(n), an int_callback_t *)
| Call0 (name : string) (r : Z)              (* r = name(), a simple_callback_t *)
| CallV (name : string) (n : Z)              (* name(n), a void_callback_t *)
| Div (num den : float).                     (* ghost: num / den was executed *)

Record world (H : Type) : Type := World { host : H; log : list event }.
Arguments World {H} host log.
Arguments host {H} w.
Arguments log {H} w.

(** The five callback shapes of the typedefs. *)
Definition double_callback_t (H : Type) : Type := float -> H -> float * H.
Definition binary_callback_t (H : Type) : Type := float -> float -> H -> float * H.
Definition int_callback_t (H : Type) : Type := Z -> H -> Z * H.
Definition simple_callback_t (H : Type) : Type := H -> Z * H.
Definition void_callback_t (H : Type) : Type := Z -> H -> H.

(** A C function without side effects, seen as a callback. *)
Definition pure1 {H A B : Type} (f : A -> B) : A -> H -> B * H :=
  fun x h => (f x, h).
Definition pure2 {H A B C : Type} (f : A -> B -> C) : A -> B -> H -> C * H :=
  fun x y h => (f x y, h).

(** ** The monad of the library's functions *)

Definition M (H A : Type) : Type := world H -> A * world H.

Definition ret {H A : Type} (a : A) : M H A := fun w => (a, w).

Definition bind {H A B : Type} (c : M H A) (k : A -> M H B) : M H B :=
  fun w => let (a, w') := c w in k a w'.

Declare Scope bridge_scope.
Delimit Scope bridge_scope with bridge.
Notation "x <- c ;; k" := (bind c (fun x => k))
  (at level 100, c at next level, k at level 200, right associativity)
  : bridge_scope.
Notation "c ;; k" := (bind c (fun _ => k))
  (at level 100, k at level 200, right associativity) : bridge_scope.
Local Open Scope bridge_scope.

Definition emit {H : Type} (ev : event) : M H unit :=
  fun w => (tt, World (host w) (log w ++ [ev])).

Definition printf {H : Type} (fmt : string) (args : list carg) : M H unit :=
  emit (Stdout fmt args).

Definition fprintf_stderr {H : Type} (fmt : string) : M H unit :=
  emit (Stderr fmt).

(** Invoking a callback: the host runs it on its state, the log records the
    invocation under the name of the parameter that holds the pointer. *)
Definition invoke {H A R : Type} (ev : A -> R -> event) (cb : A -> H -> R * H)
    (x : A) : M H R :=
  fun w => let (r, h) := cb x (host w) in (r, World h (log w ++ [ev x r])).

Definition invoke_double {H : Type} (name : string) (cb : double_callback_t H)
    (x : float) : M H float :=
  invoke (CallD name) cb x.

Definition invoke_binary {H : Type} (name : string) (cb : binary_callback_t H)
    (a b : float) : M H float :=
  fun w =>
    let (r, h) := cb a b (host w) in (r, World h (log w ++ [CallDD name a b r])).

Definition invoke_int {H : Type} (name : string) (cb : int_callback_t H)
    (n : Z) : M H Z :=
  invoke (CallI name) cb n.

Definition invoke_simple {H : Type} (name : string) (cb : simple_callback_t H)
    : M H Z :=
  fun w => let (r, h) := cb (host w) in (r, World h (log w ++ [Call0 name r])).

Definition invoke_void {H : Type} (name : string) (cb : void_callback_t H)
    (n : Z) : M H unit :=
  fun w => (tt, World (cb n (host w)) (log w ++ [CallV name n])).

(** [num / den] on doubles, leaving a ghost event. *)
Definition fdiv {H : Type} (num den : float) : M H float :=
  emit (Div num den) ;; ret (num / den)%float.

(** The conversion of an [int] to a [double] (exact: an int has 32 bits). *)
Definition double_of_int (n : Z) : float :=
  if n <? 0 then (- of_uint63 (Uint63.of_Z (- n)))%float
  else of_uint63 (Uint63.of_Z n).

(** ** Loops

    [for (int i = lo; i < hi; i++) body], where the body may [break].  The
    loop carries the variables the body assigns as a state [St]. *)
Inductive ctl (St : Type) : Type :=
| Next (s : St)     (* the body ran to its end: i++ and test again *)
| Break (s : St).   (* break *)
Arguments Next {St} s.
Arguments Break {St} s.

Fixpoint for_loop {H St : Type} (fuel : nat) (i hi : Z)
    (body : Z -> St -> M H (ctl St)) (s : St) : M H St :=
  match fuel with
  | O => ret s
  | S fuel' =>
      if i <? hi then
        c <- body i s ;;
        match c with
        | Next s' => for_loop fuel' (i + 1) hi body s'
        | Break s' => ret s'
        end
      else ret s
  end.

(** The loop runs at most [hi - lo] times, so that much fuel is enough
    (see [for_loop_fuel]). *)
Definition for_lt {H St : Type} (lo hi : Z) (body : Z -> St -> M H (ctl St))
    (s : St) : M H St :=
  for_loop (Z.to_nat (hi - lo)) lo hi body s.

(** ** Simple callback functions *)

Definition call_with_double {H : Type} (callback : double_callback_t H)
    (value : float) : M H float :=
  printf "C: Calling callback with %.2f\n" [AD value] ;;
  result <- invoke_double "callback" callback value ;;
  printf "C: Callback returned %.2f\n" [AD result] ;;
  ret result.

Definition call_with_two_doubles {H : Type} (callback : binary_callback_t H)
    (a b : float) : M H float :=
  printf "C: Calling callback with %.2f and %.2f\n" [AD a; AD b] ;;
  result <- invoke_binary "callback" callback a b ;;
  printf "C: Callback returned %.2f\n" [AD result] ;;
  ret result.

Definition call_with_int {H : Type} (callback : int_callback_t H)
    (value : Z) : M H Z :=
  printf "C: Calling callback with %d\n" [AI value] ;;
  result <- invoke_int "callback" callback value ;;
  printf "C: Callback returned %d\n" [AI result] ;;
  ret result.

Definition call_simple {H : Type} (callback : simple_callback_t H) : M H Z :=
  printf "C: Calling simple callback\n" [] ;;
  result <- invoke_simple "callback" callback ;;
  printf "C: Callback returned %d\n" [AI result] ;;
  ret result.

Definition call_void_callback {H : Type} (callback : void_callback_t H)
    (value : Z) : M H unit :=
  printf "C: Calling void callback with %d\n" [AI value] ;;
  invoke_void "callback" callback value ;;
  printf "C: Void callback completed\n" [].

(** ** Advanced callback examples *)

(** [array] points into memory the callback can reach as well: a callback
    that holds the same pointer reads and writes the buffer while
    [map_array] runs.  So the buffer is part of the state the callback
    works on: in [map_array] that state is the host's own state paired with
    the contents of the buffer [array] points to.  [array[i]] is a load
    from, and [array[i] = v] a store to, the buffer as it stands; outside
    the buffer both are undefined in C, and give [None] here. *)
Definition load {H : Type} (i : Z) : M (H * list float) (option float) :=
  fun w => (snd (host w) !! Z.to_nat i, w).

Definition store {H : Type} (i : Z) (v : float)
    : M (H * list float) (option unit) :=
  fun w =>
    if decide (Z.to_nat i < length (snd (host w)))%nat then
      (Some tt,
       World (fst (host w), <[Z.to_nat i := v]> (snd (host w))) (log w))
    else (None, w).

(** The result is [Some tt] when the function returns, [None] when it
    runs into an access outside the buffer. *)
Definition map_array {H : Type} (callback : double_callback_t (H * list float))
    (length : Z) : M (H * list float) (option unit) :=
  printf "C: Mapping over array of %d elements\n" [AI length] ;;
  for_lt 0 length
    (fun i (_ : option unit) =>
       x <- load i ;;
       match x with
       | None => ret (Break None)
       | Some x =>
           r <- invoke_double "callback" callback x ;;
           stored <- store i r ;;
           match stored with
           | None => ret (Break None)
           | Some _ => ret (Next (Some tt))
           end
       end)
    (Some tt).

(** [function(a) + function(b)]: C leaves the order of the two calls open;
    the model takes them left to right. *)
Definition integrate {H : Type} (function : double_callback_t H)
    (a b : float) (steps : Z) : M H float :=
  h <- fdiv (b - a)%float (double_of_int steps) ;;
  fa <- invoke_double "function" function a ;;
  fb <- invoke_double "function" function b ;;
  sum <- fdiv (fa + fb)%float 2%float ;;
  sum <- for_lt 1 steps
           (fun i sum =>
              let x := (a + double_of_int i * h)%float in
              fx <- invoke_double "function" function x ;;
              ret (Next (sum + fx)%float))
           sum ;;
  ret (sum * h)%float.

(** The loop body of [find_root], on the current iterate [x]. *)
Definition find_root_body {H : Type} (f df : double_callback_t H)
    (i : Z) (x : float) : M H (ctl float) :=
  fx <- invoke_double "f" f x ;;
  dfx <- invoke_double "df" df x ;;
  if (abs dfx <? 1e-10)%float then
    ret (Break x)                       (* Derivative too small *)
  else
    q <- fdiv fx dfx ;;
    let x_new := (x - q)%float in
    if (abs (x_new - x) <? 1e-10)%float then
      ret (Break x)                     (* Converged *)
    else
      ret (Next x_new).

Definition find_root {H : Type} (f df : double_callback_t H)
    (x0 : float) (max_iter : Z) : M H float :=
  for_lt 0 max_iter (find_root_body f df) x0.

Definition sum_callback_results {H : Type} (callback : int_callback_t H)
    (count : Z) : M H float :=
  for_lt 0 count
    (fun i sum =>
       r <- invoke_int "callback" callback i ;;
       ret (Next (sum + double_of_int r)%float))
    0%float.

(** ** Error handling example *)

Definition call_with_validation {H : Type} (callback : double_callback_t H)
    (value : float) : M H float :=
  result <- invoke_double "callback" callback value ;;
  if is_nan result || is_infinity result then
    fprintf_stderr "C: Callback returned invalid result\n" ;;
    ret (-1)%float
  else
    ret result.

(** ** Test helper functions *)

Definition test_double_function (x : float) : float := (x * 2)%float.

Definition test_add_function (a b : float) : float := (a + b)%float.

Definition self_test {H : Type} : M H unit :=
  printf "=== C Callback Library Self-Test ===\n" [] ;;
  result1 <- call_with_double (pure1 test_double_function) 21%float ;;
  printf "Test 1: %.2f (expected 42.00)\n" [AD result1] ;;
  result2 <- call_with_two_doubles (pure2 test_add_function) 15%float 27%float ;;
  printf "Test 2: %.2f (expected 42.00)\n" [AD result2] ;;
  printf "Self-test completed\n\n" [].

(** ** Specification vocabulary *)

(** Calling [cb] on the arguments [xs] one after the other, first to last,
    each call on the host state the previous one left: the results in the
    same order, and the final host state. *)
Fixpoint run_calls {H A R : Type} (cb : A -> H -> R * H) (xs : list A) (h : H)
    : list R * H :=
  match xs with
  | [] => ([], h)
  | x :: xs' =>
      let (r, h1) := cb x h in
      let (rs, h2) := run_calls cb xs' h1 in
      (r :: rs, h2)
  end.

(** A callback that leaves the buffer of [map_array] as it finds it (it may
    read it). *)
Definition preserves_buffer {H : Type}
    (f : double_callback_t (H * list float)) : Prop :=
  forall (x : float) (s : H * list float), snd (snd (f x s)) = snd s.

(** A callback that works on the host's own state only, as a callback of
    [map_array]: it neither reads nor writes the buffer. *)
Definition framed {H : Type} (g : double_callback_t H)
    : double_callback_t (H * list float) :=
  fun x s => let (r, h) := g x (fst s) in (r, (h, snd s)).

(** Calling [f] on the elements [todo] of a buffer one after the other,
    first to last, each result stored in place of its element before the
    next call: the buffer is [done ++ todo ++ rest], [done] holding the
    results stored so far.  The results in the same order, and the final
    host state.  (This is what happens when [f] leaves the buffer alone,
    see [preserves_buffer].) *)
Fixpoint run_buffer_calls {H : Type} (f : double_callback_t (H * list float))
    (done todo rest : list float) (h : H) : list float * H :=
  match todo with
  | [] => ([], h)
  | x :: todo' =>
      let (r, s) := f x (h, done ++ x :: todo' ++ rest) in
      let (rs, h') := run_buffer_calls f (done ++ [r]) todo' rest (fst s) in
      (r :: rs, h')
  end.

Definition INT_MAX : Z := 2147483647.

(** The composite trapezoidal sum of the specification: the half sum of the
    end values, then the interior values added one by one, first to last. *)
Definition trapezoid_sum (fa fb : float) (interior : list float) : float :=
  fold_left PrimFloat.add interior ((fa + fb) / 2)%float.

(** The interior sample points [a + 1*h, ..., a + (steps-1)*h]. *)
Definition sample_points (a h : float) (steps : Z) : list float :=
  map (fun i => (a + double_of_int i * h)%float) (seqZ 1 (steps - 1)).

(** The sum of integer results, accumulated in double precision. *)
Definition double_sum (rs : list Z) : float :=
  fold_left (fun acc r => (acc + double_of_int r)%float) rs 0%float.

(** The loop of [find_root], from iteration [i] with iterate [x] in world
    [w], comes to iteration [j] with iterate [x'] in world [w'] by running
    the body zero or more times without leaving the loop. *)
Inductive iterates {H : Type} (f df : double_callback_t H) (max_iter : Z)
  : Z -> float -> world H -> Z -> float -> world H -> Prop :=
| iterates_here (i : Z) (x : float) (w : world H) :
    iterates f df max_iter i x w i x w
| iterates_next (i : Z) (x : float) (w : world H) (x1 : float) (w1 : world H)
    (j : Z) (x' : float) (w' : world H) :
    i < max_iter ->
    find_root_body f df i x w = (Next x1, w1) ->
    iterates f df max_iter (i + 1) x1 w1 j x' w' ->
    iterates f df max_iter i x w j x' w'.

(** The guard of a division in [find_root]: the test that breaks the loop
    came out false for the divisor. *)
Definition guarded_division (ev : event) : Prop :=
  match ev with
  | Div _ den => (abs den <? 1e-10)%float = false /\ is_zero den = false
  | _ => True
  end.

(** ** Counting what a run adds to the log *)

(** The invocations of the callback held by the parameter [name]. *)
Fixpoint calls_of (name : string) (evs : list event) : nat :=
  match evs with
  | [] => 0
  | CallD n _ _ :: evs' =>
      if String.eqb n name then S (calls_of name evs') else calls_of name evs'
  | _ :: evs' => calls_of name evs'
  end.

(** The floating-point divisions. *)
Fixpoint divisions (evs : list event) : nat :=
  match evs with
  | [] => 0
  | Div _ _ :: evs' => S (divisions evs')
  | _ :: evs' => divisions evs'
  end.

(** The lines written to stdout or stderr. *)
Fixpoint outputs (evs : list event) : nat :=
  match evs with
  | [] => 0
  | Stdout _ _ :: evs' => S (outputs evs')
  | Stderr _ :: evs' => S (outputs evs')
  | _ :: evs' => outputs evs'
  end.

(** * Proofs *)

(** ** Facts of binary64 arithmetic *)

(** Arithmetic on the exponent function of binary64. *)
Ltac fexp_lia := unfold fexp, SpecFloat.emin, prec, emax in *; lia.

(** Unfolding the monad's operations in a straight-line function. *)
Ltac run_bridge :=
  unfold bind, ret, printf, fprintf_stderr, fdiv, emit,
    invoke_double, invoke_binary, invoke_int, invoke.

(** *** The constants of the source, bit for bit *)

Lemma Prim2SF_one :
  Prim2SF 1%float = S754_finite false 4503599627370496 (-52).
Proof. vm_compute. reflexivity. Qed.

Lemma Prim2SF_zero : Prim2SF 0%float = S754_zero false.
Proof. vm_compute. reflexivity. Qed.

Lemma Prim2SF_infinity : Prim2SF infinity = S754_infinity false.
Proof. vm_compute. reflexivity. Qed.

(** The double nearest to 1e-10 is 7737125245533627 * 2^-86. *)
Lemma Prim2SF_eps :
  Prim2SF 1e-10%float = S754_finite false 7737125245533627 (-86).
Proof. vm_compute. reflexivity. Qed.

(** *** The tests of [PrimFloat] on the specification side *)

Lemma SFcompare_refl (x : spec_float) :
  SFcompare x x = match x with S754_nan => None | _ => Some Eq end.
Proof.
  destruct x as [s|s| |s m e]; simpl; try done.
  - by destruct s.
  - rewrite Z.compare_refl, Pos.compare_cont_refl. by destruct s.
Qed.

Lemma is_nan_SF (x : float) :
  is_nan x = match Prim2SF x with S754_nan => true | _ => false end.
Proof.
  unfold is_nan. rewrite FloatAxioms.eqb_spec. unfold SFeqb.
  rewrite SFcompare_refl.
  by destruct (Prim2SF x).
Qed.

Lemma is_infinity_SF (x : float) :
  is_infinity x = match Prim2SF x with S754_infinity _ => true | _ => false end.
Proof.
  unfold is_infinity. rewrite FloatAxioms.eqb_spec, abs_spec, Prim2SF_infinity.
  by destruct (Prim2SF x) as [s|s| |s m e].
Qed.

Lemma is_zero_SF (x : float) :
  is_zero x = match Prim2SF x with S754_zero _ => true | _ => false end.
Proof.
  unfold is_zero, zero. rewrite FloatAxioms.eqb_spec, Prim2SF_zero.
  by destruct (Prim2SF x) as [s|[]| |[] m e].
Qed.

Lemma is_finite_SF (x : float) :
  is_finite x =
  match Prim2SF x with S754_zero _ | S754_finite _ _ _ => true | _ => false end.
Proof.
  unfold is_finite. rewrite is_nan_SF, is_infinity_SF. by destruct (Prim2SF x).
Qed.

(** *** Subtraction of a finite number from itself *)

Lemma sub_self (a : float) : is_finite a = true -> (a - a)%float = 0%float.
Proof.
  rewrite is_finite_SF. intros Ha.
  apply Prim2SF_inj. rewrite sub_spec, Prim2SF_zero.
  destruct (Prim2SF a) as [s|s| |s m e]; try done.
  - by destruct s.
  - unfold SF64sub, SFsub. rewrite Z.min_id. unfold shl_align.
    rewrite !Z.sub_diag. reflexivity.
Qed.

(** *** The conversion of a positive [int] is a positive finite number *)

Lemma digits2_pos_iter_xO (p k : positive) :
  digits2_pos (Pos.iter xO p k) = (digits2_pos p + k)%positive.
Proof.
  induction k as [|k IH] using Pos.peano_ind.
  - simpl. lia.
  - rewrite Pos.iter_succ. simpl. rewrite IH. lia.
Qed.

Lemma digits2_pos_le (p : positive) (k : Z) :
  Z.pos p < 2 ^ k -> 0 <= k -> Z.pos (digits2_pos p) <= k.
Proof.
  revert k. induction p as [p IH|p IH|]; intros k Hp Hk; simpl.
  - assert (k <> 0) by (intros ->; simpl in Hp; lia).
    replace k with (Z.succ (k - 1)) in Hp by lia.
    rewrite Z.pow_succ_r in Hp by lia.
    specialize (IH (k - 1)). lia.
  - assert (k <> 0) by (intros ->; simpl in Hp; lia).
    replace k with (Z.succ (k - 1)) in Hp by lia.
    rewrite Z.pow_succ_r in Hp by lia.
    specialize (IH (k - 1)). lia.
  - assert (k <> 0) by (intros ->; simpl in Hp; lia). lia.
Qed.

Lemma binary_normalize_small (p : positive) :
  Z.pos (digits2_pos p) <= 53 ->
  exists m e, binary_normalize prec emax (Z.pos p) 0 false = S754_finite false m e.
Proof.
  intros Hd. unfold binary_normalize, binary_round.
  replace (fexp prec emax (Z.pos (digits2_pos p) + 0))
    with (Z.pos (digits2_pos p) - 53) by fexp_lia.
  unfold shl_align. rewrite Z.sub_0_r.
  destruct (Z.pos (digits2_pos p) - 53) as [|k|k] eqn:Hk; try lia.
  - unfold binary_round_aux, shr_fexp, Zdigits2.
    replace (fexp prec emax (Z.pos (digits2_pos p) + 0) - 0) with 0 by fexp_lia.
    simpl.
    replace (fexp prec emax (Z.pos (digits2_pos p) + 0) - 0) with 0 by fexp_lia.
    simpl. eauto.
  - unfold binary_round_aux, shr_fexp, Zdigits2.
    rewrite digits2_pos_iter_xO.
    replace (fexp prec emax (Z.pos (digits2_pos p + k) + Z.neg k) - Z.neg k)
      with 0 by fexp_lia.
    simpl.
    rewrite digits2_pos_iter_xO.
    replace (fexp prec emax (Z.pos (digits2_pos p + k) + Z.neg k) - Z.neg k)
      with 0 by fexp_lia.
    simpl. eauto.
Qed.

Lemma double_of_int_pos (n : Z) :
  1 <= n <= INT_MAX ->
  exists m e, Prim2SF (double_of_int n) = S754_finite false m e.
Proof.
  unfold INT_MAX. intros Hn. unfold double_of_int.
  replace (n <? 0) with false by (symmetry; apply Z.ltb_ge; lia).
  rewrite of_uint63_spec.
  change Uint63Axioms.to_Z with Uint63.to_Z.
  rewrite Uint63.of_Z_spec.
  rewrite Z.mod_small
    by (change Uint63.wB with 9223372036854775808; lia).
  destruct n as [|p|p]; try lia.
  apply binary_normalize_small.
  transitivity 31; [|lia]. apply digits2_pos_le; lia.
Qed.

(** *** Division by one is exact *)

Lemma bounded_cases (m : positive) (e : Z) :
  bounded prec emax m e = true ->
  (Z.pos (digits2_pos m) = 53 /\ -1074 < e <= 971) \/
  (Z.pos (digits2_pos m) <= 53 /\ e = -1074).
Proof.
  unfold bounded, canonical_mantissa.
  intros Hb. apply andb_prop in Hb as [Hc He].
  apply Z.eqb_eq in Hc. apply Z.leb_le in He. fexp_lia.
Qed.

Lemma div_eucl_exact (a b : Z) : 0 < b -> Z.div_eucl (a * b) b = (a, 0).
Proof.
  intros Hb.
  pose proof (Z.div_mul a b ltac:(lia)) as Hq.
  pose proof (Z.mod_mul a b ltac:(lia)) as Hr.
  unfold Z.div, Z.modulo in Hq, Hr.
  destruct (Z.div_eucl (a * b) b) as [q r]. simpl in *. congruence.
Qed.

Lemma SFdiv_one (x : spec_float) :
  valid_binary x = true ->
  SFdiv prec emax x (S754_finite false 4503599627370496 (-52)) = x.
Proof.
  destruct x as [s|s|  |s m e]; simpl; intros Hv.
  - by destruct s.
  - by destruct s.
  - done.
  - apply bounded_cases in Hv.
    unfold SFdiv_core_binary.
    change (Zdigits2 (Z.pos 4503599627370496)) with 53.
    unfold Zdigits2.
    rewrite xorb_false_r.
    change IntDef.Z.div_eucl with Z.div_eucl.
    destruct Hv as [[Hd He]|[Hd He]].
    + (* a normal number above the smallest exponent: the quotient 2m is
         shifted back by one bit *)
      replace (fexp prec emax (Z.pos (digits2_pos m) + e - (53 + -52))
                 `min` (e - -52))
        with (e - 1) by fexp_lia.
      replace (e - -52 - (e - 1)) with 53 by lia.
      rewrite Z.shiftl_mul_pow2 by lia.
      replace (Z.pos m * 2 ^ 53) with ((Z.pos m * 2) * 4503599627370496)
        by lia.
      rewrite div_eucl_exact by lia.
      change (new_location 4503599627370496 0) with loc_Exact.
      replace (Z.pos m * 2) with (Z.pos m~0) by lia.
      unfold binary_round_aux, shr_fexp.
      unfold Zdigits2. simpl digits2_pos.
      replace (fexp prec emax (Z.pos (Pos.succ (digits2_pos m)) + (e - 1)) - (e - 1))
        with 1 by fexp_lia.
      simpl.
      replace (fexp prec emax (Z.pos (digits2_pos m) + (e - 1 + 1)) - (e - 1 + 1))
        with 0 by fexp_lia.
      simpl.
      replace (e - 1 + 1) with e by lia.
      replace (e <=? emax - prec) with true
        by (symmetry; apply Z.leb_le; unfold emax, prec; lia).
      reflexivity.
    + (* the smallest exponent: the quotient is m itself *)
      subst e.
      replace (fexp prec emax (Z.pos (digits2_pos m) + -1074 - (53 + -52))
                 `min` (-1074 - -52))
        with (-1074) by fexp_lia.
      change (-1074 - -52 - -1074) with 52.
      rewrite Z.shiftl_mul_pow2 by lia.
      change (2 ^ 52) with 4503599627370496.
      rewrite div_eucl_exact by lia.
      change (new_location 4503599627370496 0) with loc_Exact.
      unfold binary_round_aux, shr_fexp.
      unfold Zdigits2.
      replace (fexp prec emax (Z.pos (digits2_pos m) + -1074) - -1074) with 0
        by fexp_lia.
      simpl.
      replace (fexp prec emax (Z.pos (digits2_pos m) + -1074) - -1074) with 0
        by fexp_lia.
      simpl. reflexivity.
Qed.

Lemma div_one (x : float) : (x / 1)%float = x.
Proof.
  apply Prim2SF_inj. rewrite div_spec, Prim2SF_one.
  apply SFdiv_one, Prim2SF_valid.
Qed.

(** *** Zeros, guards and classes *)

(** [+0] divided by a positive step count is [+0]. *)
Lemma zero_div_steps (n : Z) :
  1 <= n <= INT_MAX -> (0 / double_of_int n)%float = 0%float.
Proof.
  intros Hn. apply Prim2SF_inj. rewrite div_spec, Prim2SF_zero.
  destruct (double_of_int_pos n Hn) as (m & e & ->). reflexivity.
Qed.

(** A finite number times [+0] is a zero. *)
Lemma mul_zero_finite (s : float) :
  is_finite s = true -> is_zero (s * 0)%float = true.
Proof.
  rewrite is_finite_SF, is_zero_SF, mul_spec, Prim2SF_zero.
  by destruct (Prim2SF s).
Qed.

(** A number that fails the test [|d| < 1e-10] is not a zero. *)
Lemma guard_nonzero (d : float) :
  (abs d <? 1e-10)%float = false -> is_zero d = false.
Proof.
  rewrite ltb_spec, abs_spec, Prim2SF_eps, is_zero_SF.
  by destruct (Prim2SF d).
Qed.

(** [isnan(r) || isinf(r)] by the class of [r]. *)
Lemma invalid_classify (r : float) :
  is_nan r || is_infinity r =
  match classify r with NaN | PInf | NInf => true | _ => false end.
Proof.
  rewrite is_nan_SF, is_infinity_SF, classify_spec.
  unfold SF64classify, SFclassify.
  destruct (Prim2SF r) as [[]|[]| |[] m e]; try done;
    by destruct (Z.pos (digits2_pos m) =? prec).
Qed.

Lemma double_of_int_1 : double_of_int 1 = 1%float.
Proof. reflexivity. Qed.

(** ** The monad and the loops *)

Lemma world_eta {H} (w : world H) : World (host w) (log w ++ []) = w.
Proof. destruct w. simpl. by rewrite app_nil_r. Qed.

(** Fuel beyond [hi - i] changes nothing: [for_lt] gives its loop enough. *)
Lemma for_loop_fuel {H S} (hi : Z) (body : Z -> S -> M H (ctl S)) (k : nat) :
  forall (n : nat) (i : Z) (s : S) (w : world H),
    n = Z.to_nat (hi - i) ->
    for_loop (n + k) i hi body s w = for_loop n i hi body s w.
Proof.
  induction n as [|n IH]; intros i s w Hn.
  - destruct k as [|k]; [done|]. simpl.
    replace (i <? hi) with false by (symmetry; apply Z.ltb_ge; lia). done.
  - simpl. destruct (i <? hi); [|done].
    unfold bind. destruct (body i s w) as [[s'|s'] w']; [|done].
    apply IH. lia.
Qed.

(** A loop whose bound is not above its start does nothing. *)
Lemma for_lt_empty {H S} (lo hi : Z) (body : Z -> S -> M H (ctl S)) (s : S)
    (w : world H) :
  hi <= lo -> for_lt lo hi body s w = (s, w).
Proof.
  intros Hle. unfold for_lt. by replace (Z.to_nat (hi - lo)) with 0%nat by lia.
Qed.

(** A loop whose body invokes a callback on [g i] and folds the result into
    the state: the calls are those of [run_calls] on the indices in ascending
    order, the state is the left fold of their results. *)
Lemma for_loop_invoke {H A R S} (ev : A -> R -> event) (cb : A -> H -> R * H)
    (g : Z -> A) (step : S -> R -> S) (hi : Z) :
  forall (n : nat) (i : Z) (s : S) (w : world H),
    n = Z.to_nat (hi - i) ->
    for_loop n i hi
      (fun i s => r <- invoke ev cb (g i) ;; ret (Next (step s r))) s w =
    let (rs, h') := run_calls cb (map g (seqZ i (hi - i))) (host w) in
    (fold_left step rs s,
     World h' (log w ++ zip_with ev (map g (seqZ i (hi - i))) rs)).
Proof.
  induction n as [|n IH]; intros i s w Hn.
  - replace (seqZ i (hi - i)) with (@nil Z) by (symmetry; apply seqZ_nil; lia).
    simpl. unfold ret. by rewrite world_eta.
  - rewrite (seqZ_cons i (hi - i)) by lia.
    replace (Z.pred (hi - i)) with (hi - Z.succ i) by lia.
    simpl. replace (i <? hi) with true by (symmetry; apply Z.ltb_lt; lia).
    unfold bind at 1. unfold bind at 1. unfold invoke at 1.
    destruct (cb (g i) (host w)) as [r h1]. unfold ret at 1.
    rewrite IH by lia. simpl.
    replace (i + 1) with (Z.succ i) by lia.
    destruct (run_calls cb (map g (seqZ (Z.succ i) (hi - Z.succ i))) h1)
      as [rs h2].
    simpl. by rewrite <- app_assoc.
Qed.

(** ** Sequences of calls *)

Lemma run_calls_length {H A R} (cb : A -> H -> R * H) (xs : list A) (h : H) :
  length (fst (run_calls cb xs h)) = length xs.
Proof.
  revert h. induction xs as [|x xs IH]; intros h; simpl; [done|].
  destruct (cb x h) as [r h1]. specialize (IH h1).
  destruct (run_calls cb xs h1) as [rs h2]. simpl in *. by rewrite IH.
Qed.

Lemma run_calls_pure {H A R} (f : A -> R) (xs : list A) (h : H) :
  run_calls (pure1 f) xs h = (map f xs, h).
Proof.
  induction xs as [|x xs IH]; simpl; [done|]. by rewrite IH.
Qed.

(** The [i]-th result is the callback's on the [i]-th argument, run on the
    host state the first [i] calls have left. *)
Lemma run_calls_lookup {H A R} (cb : A -> H -> R * H) (xs : list A) (h : H)
    (i : nat) (x : A) :
  xs !! i = Some x ->
  fst (run_calls cb xs h) !! i =
  Some (fst (cb x (snd (run_calls cb (take i xs) h)))).
Proof.
  revert h i. induction xs as [|y xs IH]; intros h i Hx; [done|].
  destruct i as [|i]; simpl in *.
  - injection Hx as ->. destruct (cb x h) as [r h1].
    by destruct (run_calls cb xs h1).
  - destruct (cb y h) as [r h1]. specialize (IH h1 i Hx).
    destruct (run_calls cb xs h1) as [rs h2].
    destruct (run_calls cb (take i xs) h1) as [rs' h2']. done.
Qed.

(** ** The buffer of [map_array] *)

Lemma run_buffer_calls_length {H} (f : double_callback_t (H * list float))
    (todo rest : list float) :
  forall (pre : list float) (h : H),
    length (fst (run_buffer_calls f pre todo rest h)) = length todo.
Proof.
  induction todo as [|x todo IH]; intros pre h; simpl; [done|].
  destruct (f x (h, pre ++ x :: todo ++ rest)) as [r s].
  specialize (IH (pre ++ [r]) (fst s)).
  destruct (run_buffer_calls f (pre ++ [r]) todo rest (fst s)) as [rs h'].
  simpl in *. by rewrite IH.
Qed.

(** A callback on the host's own state is called on that state only. *)
Lemma run_buffer_calls_framed {H} (g : double_callback_t H)
    (todo rest : list float) :
  forall (pre : list float) (h : H),
    run_buffer_calls (framed g) pre todo rest h = run_calls g todo h.
Proof.
  induction todo as [|x todo IH]; intros pre h; simpl; [done|].
  unfold framed at 1. simpl. destruct (g x h) as [r h1]. simpl.
  by rewrite IH.
Qed.

Lemma run_buffer_calls_pure {H} (g : float -> float) (todo rest : list float) :
  forall (pre : list float) (h : H),
    run_buffer_calls (pure1 g) pre todo rest h = (map g todo, h).
Proof.
  induction todo as [|x todo IH]; intros pre h; simpl; [done|].
  by rewrite IH.
Qed.

(** The [i]-th result is the callback's on the [i]-th element, called with
    the first [i] elements of the buffer already replaced by their
    results. *)
Lemma run_buffer_calls_lookup {H} (f : double_callback_t (H * list float))
    (rest : list float) :
  forall (todo pre : list float) (h : H) (i : nat) (x : float),
    todo !! i = Some x ->
    exists hi : H,
      fst (run_buffer_calls f pre todo rest h) !! i =
      Some (fst (f x (hi, pre ++ take i (fst (run_buffer_calls f pre todo rest h))
                            ++ drop i todo ++ rest))).
Proof.
  induction todo as [|y todo IH]; intros pre h i x Hx; [done|].
  destruct i as [|i]; simpl in Hx.
  - injection Hx as ->. exists h. simpl.
    destruct (f x (h, pre ++ x :: todo ++ rest)) as [r s].
    by destruct (run_buffer_calls f (pre ++ [r]) todo rest (fst s)).
  - simpl. destruct (f y (h, pre ++ y :: todo ++ rest)) as [r s].
    destruct (IH (pre ++ [r]) (fst s) i x Hx) as [hi Hi]. exists hi.
    destruct (run_buffer_calls f (pre ++ [r]) todo rest (fst s)) as [rs h'].
    simpl in *. rewrite Hi. by rewrite <- app_assoc.
Qed.

(** The loop body of [map_array]. *)
Local Abbreviation map_array_body callback :=
  (fun (i : Z) (_ : option unit) =>
     x <- load i ;;
     match x with
     | None => ret (Break None)
     | Some x =>
         r <- invoke_double "callback" callback x ;;
         stored <- store i r ;;
         match stored with
         | None => ret (Break None)
         | Some _ => ret (Next (Some tt))
         end
     end).

(** One run of the body on the element [x] at index [i], with a callback
    that leaves the buffer alone. *)
Lemma map_array_body_run {H} (f : double_callback_t (H * list float))
    (i : Z) (o : option unit) (pre : list float) (x : float)
    (post : list float) (h : H) (lg : list event) :
  preserves_buffer f ->
  i = Z.of_nat (length pre) ->
  map_array_body f i o (World (h, pre ++ x :: post) lg) =
    let (r, s) := f x (h, pre ++ x :: post) in
    (Next (Some tt),
     World (fst s, (pre ++ [r]) ++ post) (lg ++ [CallD "callback" x r])).
Proof.
  intros Hf Hi. specialize (Hf x (h, pre ++ x :: post)).
  unfold bind at 1. unfold load at 1. cbn [host snd].
  rewrite list_lookup_middle by lia.
  unfold bind at 1. unfold invoke_double, invoke. cbn [host log].
  destruct (f x (h, pre ++ x :: post)) as [r [h1 arr]].
  cbn [snd fst] in *. subst arr.
  unfold bind, store, ret. cbn [host log snd fst].
  rewrite decide_True by (rewrite length_app; simpl; lia).
  rewrite insert_app_r_alt by lia.
  replace (Z.to_nat i - length pre)%nat with 0%nat by lia.
  simpl. by rewrite <- app_assoc.
Qed.

(** The loop on the next elements [todo], with the results [pre] before
    them and [rest] after them in the buffer. *)
Lemma map_array_loop {H} (f : double_callback_t (H * list float)) (hi : Z)
    (rest : list float) :
  preserves_buffer f ->
  forall (todo pre : list float) (i : Z) (h : H) (lg : list event),
    i = Z.of_nat (length pre) ->
    hi = i + Z.of_nat (length todo) ->
    for_loop (length todo) i hi (map_array_body f) (Some tt)
      (World (h, pre ++ todo ++ rest) lg) =
    let (rs, h') := run_buffer_calls f pre todo rest h in
    (Some tt,
     World (h', pre ++ rs ++ rest) (lg ++ zip_with (CallD "callback") todo rs)).
Proof.
  intros Hf. induction todo as [|x todo IH]; intros pre i h lg Hi Hhi.
  - simpl. unfold ret. by rewrite app_nil_r.
  - simpl length in *. cbn [for_loop].
    replace (i <? hi) with true by (symmetry; apply Z.ltb_lt; lia).
    unfold bind at 1. rewrite <- app_comm_cons.
    rewrite (map_array_body_run f i (Some tt) pre x (todo ++ rest) h lg Hf Hi).
    simpl run_buffer_calls.
    destruct (f x (h, pre ++ x :: todo ++ rest)) as [r s].
    rewrite (IH (pre ++ [r]) (i + 1) (fst s)
               (lg ++ [CallD "callback" x r]));
      [|rewrite length_app; simpl; lia|lia].
    destruct (run_buffer_calls f (pre ++ [r]) todo rest (fst s)) as [rs h'].
    simpl. by rewrite <- !app_assoc.
Qed.

(** The loop with a bound above the end of the buffer: after the last
    element it reads past the end. *)
Lemma map_array_loop_overrun {H} (f : double_callback_t (H * list float))
    (hi : Z) (k : nat) :
  preserves_buffer f ->
  forall (todo pre : list float) (i : Z) (h : H) (lg : list event),
    i = Z.of_nat (length pre) ->
    i + Z.of_nat (length todo) < hi ->
    for_loop (length todo + S k) i hi (map_array_body f) (Some tt)
      (World (h, pre ++ todo) lg) =
    let (rs, h') := run_buffer_calls f pre todo [] h in
    (None,
     World (h', pre ++ rs) (lg ++ zip_with (CallD "callback") todo rs)).
Proof.
  intros Hf. induction todo as [|x todo IH]; intros pre i h lg Hi Hhi.
  - simpl length in *. cbn [Nat.add for_loop].
    replace (i <? hi) with true by (symmetry; apply Z.ltb_lt; lia).
    unfold bind, load, ret. simpl.
    rewrite lookup_ge_None_2 by (rewrite app_nil_r; lia).
    by rewrite !app_nil_r.
  - simpl length in *. cbn [Nat.add for_loop].
    replace (i <? hi) with true by (symmetry; apply Z.ltb_lt; lia).
    unfold bind at 1.
    rewrite (map_array_body_run f i (Some tt) pre x todo h lg Hf Hi).
    simpl run_buffer_calls. rewrite app_nil_r.
    destruct (f x (h, pre ++ x :: todo)) as [r s].
    rewrite (IH (pre ++ [r]) (i + 1) (fst s)
               (lg ++ [CallD "callback" x r]));
      [|rewrite length_app; simpl; lia|lia].
    destruct (run_buffer_calls f (pre ++ [r]) todo [] (fst s)) as [rs h'].
    simpl. by rewrite <- !app_assoc.
Qed.

(** * The claims *)

(** ** The invocation primitives *)

(** C8: the invocation primitives are pass-throughs.  [call_with_double]
    returns what the callback returns on [v], after invoking it exactly once
    (the log gains one call, between the two printed lines), and
    [call_with_two_doubles] does the same with two arguments; on the test
    callbacks, [call_with_two_doubles(add, 15, 27)] and
    [call_with_double(double_it, 21)] are both 42. *)
Theorem invocation_passthrough {H} (f : double_callback_t H)
    (g : binary_callback_t H) (v a b : float) (w : world H) :
  call_with_double f v w =
    (let (r, h) := f v (host w) in
     (r, World h (log w ++ [Stdout "C: Calling callback with %.2f\n" [AD v];
                            CallD "callback" v r;
                            Stdout "C: Callback returned %.2f\n" [AD r]])))
  /\ call_with_two_doubles g a b w =
    (let (r, h) := g a b (host w) in
     (r, World h (log w ++ [Stdout "C: Calling callback with %.2f and %.2f\n"
                              [AD a; AD b];
                            CallDD "callback" a b r;
                            Stdout "C: Callback returned %.2f\n" [AD r]])))
  /\ fst (call_with_two_doubles (pure2 test_add_function) 15 27 w) = 42%float
  /\ fst (call_with_double (pure1 test_double_function) 21 w) = 42%float.
Proof.
  repeat split.
  - unfold call_with_double. run_bridge. simpl.
    destruct (f v (host w)) as [r h]. simpl. by rewrite <- !app_assoc.
  - unfold call_with_two_doubles. run_bridge. simpl.
    destruct (g a b (host w)) as [r h]. simpl. by rewrite <- !app_assoc.
Qed.

(** ** Array mapping *)

(** C3, as the code has it: for a callback that leaves the buffer as it
    finds it, on a buffer [B] whose length is the [length] argument,
    [map_array] invokes the callback on the original elements in ascending
    index order (the logged calls are those of [B], first to last, each with
    the result then stored), and the buffer ends as the list of the
    results: it keeps its length, and element [i] is the callback's result
    on the original element [i] (called with the first [i] elements already
    replaced).  For a callback that works on the host's own state only,
    these are the calls of [run_calls]; for one without side effects [g],
    element [i] is [g] of the original element.  An empty buffer stays
    empty, with no call. *)
Theorem map_array_spec {H} (f : double_callback_t (H * list float))
    (B : list float) (h : H) (lg : list event) :
  preserves_buffer f ->
  let n := Z.of_nat (length B) in
  let (rs, h') := run_buffer_calls f [] B [] h in
  map_array f n (World (h, B) lg) =
    (Some tt,
     World (h', rs)
       (lg ++ Stdout "C: Mapping over array of %d elements\n" [AI n]
           :: zip_with (CallD "callback") B rs))
  /\ length rs = length B
  /\ (forall (i : nat) (x : float),
        B !! i = Some x ->
        exists hi : H,
          rs !! i = Some (fst (f x (hi, take i rs ++ drop i B))))
  /\ (forall g : double_callback_t H,
        f = framed g -> (rs, h') = run_calls g B h)
  /\ (forall g : float -> float, f = pure1 g -> rs = map g B /\ h' = h)
  /\ (B = [] -> rs = [] /\ h' = h).
Proof.
  intros Hf n.
  pose proof (run_buffer_calls_length f B [] [] h) as Hlen.
  pose proof (run_buffer_calls_lookup f [] B [] h) as Hlook.
  pose proof (map_array_loop f n [] Hf B [] 0 h
                (lg ++ [Stdout "C: Mapping over array of %d elements\n"
                          [AI n]])) as Hloop.
  destruct (run_buffer_calls f [] B [] h) as [rs h'] eqn:Hrun.
  simpl in Hlen, Hlook.
  split; [|split; [|split; [|split; [|split]]]].
  - unfold map_array, for_lt. unfold bind at 1. unfold printf, emit.
    cbn [host log]. rewrite Z.sub_0_r. unfold n at 1. rewrite Nat2Z.id.
    rewrite !app_nil_r in Hloop. simpl app in Hloop.
    rewrite Hloop by (unfold n; simpl; lia). by rewrite <- app_assoc.
  - exact Hlen.
  - intros i x Hx. destruct (Hlook i x Hx) as [hi Hi]. exists hi.
    by rewrite app_nil_r in Hi.
  - intros g ->. by rewrite run_buffer_calls_framed in Hrun.
  - intros g ->. rewrite run_buffer_calls_pure in Hrun.
    by injection Hrun as <- <-.
  - intros ->. simpl in Hrun. by injection Hrun as <- <-.
Qed.

(** A run of C3: doubling [1; 2; 3]. *)
Lemma map_array_spec_witness :
  map_array (pure1 test_double_function) 3 (World (tt, [1; 2; 3]%float) []) =
    (Some tt,
     World (tt, [2; 4; 6]%float)
       [Stdout "C: Mapping over array of %d elements\n" [AI 3];
        CallD "callback" 1 2; CallD "callback" 2 4; CallD "callback" 3 6])
  /\ [2; 4; 6]%float = map test_double_function [1; 2; 3]%float.
Proof.
  pose proof (map_array_spec (H:=unit) (pure1 test_double_function)
                [1; 2; 3]%float tt [] ltac:(by intros x s)) as Hs.
  cbv zeta in Hs. vm_compute run_buffer_calls in Hs.
  destruct Hs as (Hrun & _ & _ & _ & Hpure & _).
  split; [exact Hrun|].
  exact (proj1 (Hpure test_double_function eq_refl)).
Defined.

(** C3 as stated fails for a callback that holds the buffer's pointer.
    This one doubles its argument and, when called on 1, also writes 100
    into [array[1]].  On [1; 2; 3] the second call is then on 100, not on
    the original 2, and the buffer ends as [2; 200; 6], while the callback
    on the original second element gives 4. *)
Lemma map_array_spec_counterexample :
  let f : double_callback_t (unit * list float) :=
    fun x s =>
      ((x * 2)%float,
       (fst s, if (x =? 1)%float then <[1%nat := 100%float]> (snd s) else snd s))
  in
  map_array f 3 (World (tt, [1; 2; 3]%float) []) =
    (Some tt,
     World (tt, [2; 200; 6]%float)
       [Stdout "C: Mapping over array of %d elements\n" [AI 3];
        CallD "callback" 1 2; CallD "callback" 100 200; CallD "callback" 3 6])
  /\ fst (f 2%float (tt, [1; 2; 3]%float)) = 4%float
  /\ (200 =? 4)%float = false.
Proof. vm_compute. done. Qed.

(** C10: with a negative [length], [map_array] prints its line and does
    nothing else: no callback is invoked (the log gains that line only) and
    the state, the buffer with it, is unchanged. *)
Theorem map_array_negative_length {H} (f : double_callback_t (H * list float))
    (length : Z) (w : world (H * list float)) :
  length < 0 ->
  map_array f length w =
    (Some tt,
     World (host w)
       (log w ++ [Stdout "C: Mapping over array of %d elements\n" [AI length]])).
Proof.
  intros Hl. unfold map_array, bind, printf, emit.
  by rewrite for_lt_empty by lia.
Qed.

(** A run of C10: [length = -4]. *)
Lemma map_array_negative_length_witness :
  map_array (pure1 test_double_function) (-4)
    (World (tt, [1; 2; 3]%float) []) =
    (Some tt,
     World (tt, [1; 2; 3]%float)
       [Stdout "C: Mapping over array of %d elements\n" [AI (-4)]]).
Proof.
  apply (map_array_negative_length (H:=unit) (pure1 test_double_function)
           (-4) (World (tt, [1; 2; 3]%float) [])).
  lia.
Defined.

(** ** Trapezoidal integration *)

(** The whole run of [integrate]: the callback is invoked on [a], on [b],
    then on the interior sample points in ascending order; the result is
    the trapezoid sum of the values it returned, times [h]. *)
Lemma integrate_run {H} (f : double_callback_t H) (a b : float) (steps : Z)
    (w : world H) :
  let h := ((b - a) / double_of_int steps)%float in
  let (ra, h1) := f a (host w) in
  let (rb, h2) := f b h1 in
  let (rs, h3) := run_calls f (sample_points a h steps) h2 in
  integrate f a b steps w =
    ((trapezoid_sum ra rb rs * h)%float,
     World h3 (log w ++ Div (b - a) (double_of_int steps)
                     :: CallD "function" a ra
                     :: CallD "function" b rb
                     :: Div (ra + rb) 2
                     :: zip_with (CallD "function") (sample_points a h steps) rs)).
Proof.
  intros h. unfold integrate, fdiv, emit.
  unfold bind at 1. unfold bind at 1. unfold ret at 1.
  unfold bind at 1. unfold invoke_double at 1. unfold invoke at 1. simpl host.
  destruct (f a (host w)) as [ra h1].
  unfold bind at 1. unfold invoke_double at 1. unfold invoke at 1. simpl host.
  destruct (f b h1) as [rb h2].
  unfold bind at 1. unfold bind at 1. unfold ret at 1. simpl host. simpl log.
  unfold bind at 1. unfold for_lt, invoke_double.
  rewrite (for_loop_invoke (CallD "function") f
             (fun i => (a + double_of_int i * ((b - a) / double_of_int steps))%float)
             PrimFloat.add) by done.
  simpl host. simpl log. fold h. fold (sample_points a h steps).
  destruct (run_calls f (sample_points a h steps) h2) as [rs h3].
  unfold ret, trapezoid_sum. f_equal. f_equal.
  rewrite <- !app_assoc. reflexivity.
Qed.

(** C2: for [steps >= 1], [integrate] computes [h = (b - a) / steps] and
    returns [((f(a) + f(b)) / 2 + f(a + 1*h) + ... + f(a + (steps-1)*h)) * h],
    where each [f(x)] is what the callback returned on [x] and the interior
    values are added one by one in ascending order of [i] (for a callback
    without side effects [g], these values are [g] of the points); for
    [steps = 1] the result is [(f(a) + f(b)) / 2 * (b - a)]. *)
Theorem integrate_trapezoid {H} (f : double_callback_t H) (a b : float)
    (steps : Z) (w : world H) :
  1 <= steps ->
  let h := ((b - a) / double_of_int steps)%float in
  let (ra, h1) := f a (host w) in
  let (rb, h2) := f b h1 in
  let (rs, h3) := run_calls f (sample_points a h steps) h2 in
  integrate f a b steps w =
    ((trapezoid_sum ra rb rs * h)%float,
     World h3 (log w ++ Div (b - a) (double_of_int steps)
                     :: CallD "function" a ra
                     :: CallD "function" b rb
                     :: Div (ra + rb) 2
                     :: zip_with (CallD "function") (sample_points a h steps) rs))
  /\ (forall g : float -> float,
        f = pure1 g ->
        ra = g a /\ rb = g b /\ rs = map g (sample_points a h steps))
  /\ (steps = 1 ->
      fst (integrate f a b steps w) = ((ra + rb) / 2 * (b - a))%float).
Proof.
  intros Hsteps h.
  pose proof (integrate_run f a b steps w) as Hrun.
  cbv zeta in Hrun. fold h in Hrun.
  destruct (f a (host w)) as [ra h1] eqn:Hra.
  destruct (f b h1) as [rb h2] eqn:Hrb.
  destruct (run_calls f (sample_points a h steps) h2) as [rs h3] eqn:Hrs.
  split; [exact Hrun|]. split.
  - intros g ->. unfold pure1 in Hra, Hrb. rewrite run_calls_pure in Hrs.
    injection Hra as <- _. injection Hrb as <- _. by injection Hrs as <- _.
  - intros ->. rewrite Hrun. simpl fst.
    unfold sample_points in Hrs. simpl in Hrs. injection Hrs as <- _.
    unfold trapezoid_sum, h. simpl fold_left.
    rewrite double_of_int_1, div_one. reflexivity.
Qed.

(** A run of C2: [2x] over [0, 1] in one step. *)
Lemma integrate_trapezoid_witness :
  integrate (pure1 test_double_function) 0 1 1 (World tt []) =
    (1%float,
     World tt [Div 1 1; CallD "function" 0 0; CallD "function" 1 2; Div 2 2])
  /\ fst (integrate (pure1 test_double_function) 0 1 1 (World tt [])) =
      ((0 + 2) / 2 * (1 - 0))%float.
Proof.
  pose proof (integrate_trapezoid (pure1 test_double_function) 0 1 1
                (World tt []) ltac:(lia)) as Hs.
  cbv zeta in Hs. simpl in Hs.
  destruct Hs as (Hrun & _ & Hone). split; [exact Hrun|exact (Hone eq_refl)].
Defined.

(** The sign bit of a number that is not NaN, on the specification side. *)
Lemma get_sign_SF (x : float) :
  get_sign x =
  match Prim2SF x with
  | S754_zero s | S754_infinity s | S754_finite s _ _ => s
  | S754_nan => false
  end.
Proof.
  unfold get_sign. rewrite is_zero_SF.
  destruct (Prim2SF x) as [s|s| |s m e] eqn:Hx.
  - rewrite ltb_spec, div_spec, Hx. by destruct s.
  - rewrite ltb_spec, Hx. by destruct s.
  - by rewrite ltb_spec, Hx.
  - rewrite ltb_spec, Hx. by destruct s.
Qed.

(** A finite number times [+0] is the zero of its sign. *)
Lemma mul_zero_sign (s : float) :
  is_finite s = true ->
  (s * 0)%float = (if get_sign s then -0 else 0)%float.
Proof.
  rewrite is_finite_SF, get_sign_SF. intros Hs.
  apply Prim2SF_inj. rewrite mul_spec, Prim2SF_zero.
  by destruct (Prim2SF s) as [[]|[]| |[] m e].
Qed.

(** C6, as the code has it: for a finite bound [a] and [1 <= steps <=
    INT_MAX], when the sum accumulated from the returned values is finite,
    [integrate(f, a, a, steps)] is a zero: it compares equal to 0, and it
    is [-0.0] when that sum is negative (or [-0.0]) and [+0.0] otherwise.
    Here [h] is [+0], so the sample points are [a + i * 0]. *)
Theorem integrate_same_bounds {H} (f : double_callback_t H) (a : float)
    (steps : Z) (w : world H) :
  is_finite a = true ->
  1 <= steps <= INT_MAX ->
  let (ra, h1) := f a (host w) in
  let (rb, h2) := f a h1 in
  let (rs, h3) := run_calls f (sample_points a 0 steps) h2 in
  is_finite (trapezoid_sum ra rb rs) = true ->
  (fst (integrate f a a steps w) =? 0)%float = true
  /\ fst (integrate f a a steps w) =
     (if get_sign (trapezoid_sum ra rb rs) then -0 else 0)%float.
Proof.
  intros Ha Hsteps.
  pose proof (integrate_run f a a steps w) as Hrun. cbv zeta in Hrun.
  rewrite (sub_self a Ha), (zero_div_steps steps Hsteps) in Hrun. simpl in Hrun.
  destruct (f a (host w)) as [ra h1].
  destruct (f a h1) as [rb h2].
  destruct (run_calls f (sample_points a 0 steps) h2) as [rs h3].
  intros Hsum. rewrite Hrun. simpl fst. split.
  - apply (mul_zero_finite _ Hsum).
  - apply (mul_zero_sign _ Hsum).
Qed.

(** A run of C6: [x - 10] over [3, 3] in four steps; the sum is negative,
    the result [-0.0]. *)
Lemma integrate_same_bounds_witness :
  (fst (integrate (pure1 (fun x => x - 10)%float) 3 3 4 (World tt [])) =? 0)%float
  = true
  /\ fst (integrate (pure1 (fun x => x - 10)%float) 3 3 4 (World tt [])) =
     (-0)%float.
Proof.
  apply (integrate_same_bounds (pure1 (fun x => x - 10)%float) 3 4
           (World tt []));
    [reflexivity | unfold INT_MAX; lia | reflexivity].
Defined.

(** C6 as stated fails.  A callback that always returns the largest finite
    double makes [(f(a) + f(a)) / 2] overflow to infinity, and infinity
    times [h = 0] is NaN; and with an infinite bound, [a - a] is NaN
    already.  NaN does not compare equal to 0. *)
Lemma integrate_same_bounds_counterexample :
  let big := 0x1.fffffffffffffp+1023%float in
  (is_finite big = true /\
   fst (integrate (pure1 (fun _ => big)) 0 0 1 (World tt [])) = nan)
  /\ (is_finite 1 = true /\
      fst (integrate (pure1 (fun _ => 1%float)) infinity infinity 1 (World tt []))
      = nan)
  /\ (nan =? 0)%float = false.
Proof. vm_compute. done. Qed.

(** ** Newton's method *)

(** C7: with [max_iter = 0], [find_root] returns [x0] and leaves the world
    as it was: neither callback is invoked. *)
Theorem find_root_no_iteration {H} (f df : double_callback_t H) (x0 : float)
    (w : world H) :
  find_root f df x0 0 w = (x0, w).
Proof. unfold find_root. apply for_lt_empty. lia. Qed.

Section FindRoot.
Context {H : Type} (f df : double_callback_t H) (max_iter : Z).

(** One run of the loop body, case by case. *)
Lemma find_root_body_run (i : Z) (x : float) (w : world H) :
  find_root_body f df i x w =
    let (fx, h1) := f x (host w) in
    let (dfx, h2) := df x h1 in
    if (abs dfx <? 1e-10)%float then
      (Break x, World h2 (log w ++ [CallD "f" x fx; CallD "df" x dfx]))
    else
      (if (abs (x - fx / dfx - x) <? 1e-10)%float then Break x
       else Next (x - fx / dfx)%float,
       World h2 (log w ++ [CallD "f" x fx; CallD "df" x dfx; Div fx dfx])).
Proof.
  unfold find_root_body. run_bridge. simpl.
  destruct (f x (host w)) as [fx h1]. simpl.
  destruct (df x h1) as [dfx h2]. simpl.
  destruct (abs dfx <? 1e-10)%float.
  - rewrite <- app_assoc. reflexivity.
  - destruct (abs (x - fx / dfx - x) <? 1e-10)%float;
      simpl; rewrite <- !app_assoc; reflexivity.
Qed.

(** The loop from a state is the loop from any state it comes to. *)
Lemma iterates_for_loop (i : Z) (x : float) (w : world H)
    (j : Z) (x' : float) (w' : world H) :
  iterates f df max_iter i x w j x' w' ->
  for_loop (Z.to_nat (max_iter - i)) i max_iter (find_root_body f df) x w =
  for_loop (Z.to_nat (max_iter - j)) j max_iter (find_root_body f df) x' w'.
Proof.
  induction 1 as [|i x w x1 w1 j x' w' Hi Hbody _ IH]; [done|].
  rewrite <- IH.
  replace (Z.to_nat (max_iter - i)) with (S (Z.to_nat (max_iter - (i + 1))))
    by lia.
  cbn [for_loop].
  replace (i <? max_iter) with true by (symmetry; apply Z.ltb_lt; lia).
  unfold bind at 1. by rewrite Hbody.
Qed.

(** A [break] in a state the loop comes to ends [find_root]. *)
Lemma find_root_break (x0 : float) (w0 : world H) (i : Z) (x : float)
    (w : world H) (y : float) (w' : world H) :
  iterates f df max_iter 0 x0 w0 i x w ->
  i < max_iter ->
  find_root_body f df i x w = (Break y, w') ->
  find_root f df x0 max_iter w0 = (y, w').
Proof.
  intros Hit Hi Hbody. unfold find_root, for_lt.
  rewrite (iterates_for_loop _ _ _ _ _ _ Hit).
  replace (Z.to_nat (max_iter - i)) with (S (Z.to_nat (max_iter - (i + 1))))
    by lia.
  cbn [for_loop].
  replace (i <? max_iter) with true by (symmetry; apply Z.ltb_lt; lia).
  unfold bind at 1. by rewrite Hbody.
Qed.

(** Whatever the loop appends to the log, its divisions are guarded. *)
Lemma find_root_loop_divisions :
  forall (n : nat) (i : Z) (x : float) (w : world H),
  exists evs,
    log (snd (for_loop n i max_iter (find_root_body f df) x w)) = log w ++ evs /\
    Forall guarded_division evs.
Proof.
  induction n as [|n IH]; intros i x w.
  - exists []. simpl. by rewrite app_nil_r.
  - cbn [for_loop]. destruct (i <? max_iter).
    2:{ exists []. simpl. by rewrite app_nil_r. }
    unfold bind at 1. rewrite find_root_body_run.
    destruct (f x (host w)) as [fx h1]. destruct (df x h1) as [dfx h2].
    destruct (abs dfx <? 1e-10)%float eqn:Hg.
    + eexists. split; [reflexivity|]. by repeat constructor.
    + assert (Forall guarded_division
                [CallD "f" x fx; CallD "df" x dfx; Div fx dfx]) as Hevs.
      { repeat constructor; [done|]. by apply guard_nonzero. }
      destruct (abs (x - fx / dfx - x) <? 1e-10)%float.
      * eexists. split; [reflexivity|]. done.
      * destruct (IH (i + 1) (x - fx / dfx)%float
                    (World h2 (log w ++ [CallD "f" x fx; CallD "df" x dfx;
                                         Div fx dfx])))
          as (evs & Hlog & Hall).
        eexists. split.
        -- rewrite Hlog. simpl. rewrite <- app_assoc. reflexivity.
        -- by apply Forall_app.
Qed.

(** C1, as the code has it: whenever an iteration of [find_root], on the
    iterate [x], computes [x_new = x - f(x)/df(x)] and the convergence test
    [|x_new - x| < 1e-10] holds, the function stops there and returns [x],
    the iterate the iteration started from, not [x_new]. *)
Theorem find_root_converged_returns_previous (x0 : float) (w0 : world H)
    (i : Z) (x : float) (w : world H) :
  iterates f df max_iter 0 x0 w0 i x w ->
  i < max_iter ->
  let (fx, h1) := f x (host w) in
  let (dfx, h2) := df x h1 in
  let x_new := (x - fx / dfx)%float in
  (abs dfx <? 1e-10)%float = false ->
  (abs (x_new - x) <? 1e-10)%float = true ->
  find_root f df x0 max_iter w0 =
    (x, World h2 (log w ++ [CallD "f" x fx; CallD "df" x dfx; Div fx dfx])).
Proof.
  intros Hit Hi.
  pose proof (find_root_body_run i x w) as Hbody.
  destruct (f x (host w)) as [fx h1]. destruct (df x h1) as [dfx h2].
  intros x_new Hg Hc. rewrite Hg in Hbody. fold x_new in Hbody.
  rewrite Hc in Hbody.
  exact (find_root_break _ _ _ _ _ _ _ Hit Hi Hbody).
Qed.

(** C9, as the code has it: [find_root] divides only by a [dfx] for which
    the test [|dfx| < 1e-10] came out false (that is [|dfx| >= 1e-10], or
    [dfx] is NaN), so the divisor is never zero; and if [|df(x)| < 1e-10]
    at any iteration, the function stops there, before dividing, and
    returns the current iterate [x], with nothing to signal it. *)
Theorem find_root_division_guarded (x0 : float) (w0 : world H) :
  (exists evs,
     log (snd (find_root f df x0 max_iter w0)) = log w0 ++ evs /\
     Forall guarded_division evs)
  /\ (forall (i : Z) (x : float) (w : world H),
        iterates f df max_iter 0 x0 w0 i x w ->
        i < max_iter ->
        let (fx, h1) := f x (host w) in
        let (dfx, h2) := df x h1 in
        (abs dfx <? 1e-10)%float = true ->
        find_root f df x0 max_iter w0 =
          (x, World h2 (log w ++ [CallD "f" x fx; CallD "df" x dfx]))).
Proof.
  split; [apply find_root_loop_divisions|].
  intros i x w Hit Hi.
  pose proof (find_root_body_run i x w) as Hbody.
  destruct (f x (host w)) as [fx h1]. destruct (df x h1) as [dfx h2].
  intros Hg. rewrite Hg in Hbody.
  exact (find_root_break _ _ _ _ _ _ _ Hit Hi Hbody).
Qed.
End FindRoot.

(** A run of C1: [x - 42] from 0 converges in the second iteration, on the
    iterate 42. *)
Lemma find_root_converged_witness :
  find_root (pure1 (fun x => x - 42)%float) (pure1 (fun _ => 1%float)) 0 10
    (World tt []) =
  (42%float,
   World tt [CallD "f" 0 (-42); CallD "df" 0 1; Div (-42) 1;
             CallD "f" 42 0; CallD "df" 42 1; Div 0 1]).
Proof.
  refine (find_root_converged_returns_previous
            (pure1 (fun x => x - 42)%float) (pure1 (fun _ => 1%float)) 10
            0 (World tt []) 1 42
            (World tt [CallD "f" 0 (-42); CallD "df" 0 1; Div (-42) 1])
            _ _ eq_refl eq_refl).
  - eapply iterates_next; [lia | reflexivity | apply iterates_here].
  - lia.
Defined.

(** C1 as stated fails: with [f] constantly 1e-11, [df] constantly 1 and
    [x0 = 0], the first iteration computes [x_new = -1e-11], the convergence
    test holds, and [find_root] returns 0, which is [x] and not [x_new]. *)
Lemma find_root_converged_counterexample :
  let f : double_callback_t unit := pure1 (fun _ => 1e-11%float) in
  let df : double_callback_t unit := pure1 (fun _ => 1%float) in
  let x := 0%float in
  let x_new := (x - 1e-11 / 1)%float in
  (abs 1 <? 1e-10)%float = false /\
  (abs (x_new - x) <? 1e-10)%float = true /\
  fst (find_root f df x 1 (World tt [])) = x /\
  (x =? x_new)%float = false.
Proof. vm_compute. done. Qed.

(** A run of C9: a zero derivative stops the first iteration. *)
Lemma find_root_division_guarded_witness :
  find_root (pure1 (fun _ => 1%float)) (pure1 (fun _ => 0%float)) 5 3
    (World tt []) =
  (5%float, World tt [CallD "f" 5 1; CallD "df" 5 0]).
Proof.
  refine (proj2 (find_root_division_guarded
                   (pure1 (fun _ => 1%float)) (pure1 (fun _ => 0%float)) 3
                   5 (World tt []))
            0 5%float (World tt []) _ _ eq_refl).
  - apply iterates_here.
  - lia.
Defined.

(** C9 as stated fails: when [df] returns NaN, the test [|dfx| < 1e-10] is
    false, so the division [1 / NaN] is executed, although [|dfx| >= 1e-10]
    does not hold. *)
Lemma find_root_division_counterexample :
  let f : double_callback_t unit := pure1 (fun _ => 1%float) in
  let df : double_callback_t unit := pure1 (fun _ => nan) in
  log (snd (find_root f df 0 1 (World tt []))) =
    [CallD "f" 0 1; CallD "df" 0 nan; Div 1 nan] /\
  (1e-10 <=? abs nan)%float = false.
Proof. vm_compute. done. Qed.

(** ** Repeated-call summation *)

(** C5: [sum_callback_results] invokes the callback on [0, 1, ...,
    count - 1] in ascending order and returns the sum of the results, each
    converted to a double and added to the running double sum in that
    order (for a callback without side effects [g], the results are [g 0],
    ..., [g (count - 1)]); it returns 0, with no call, when [count <= 0];
    with the identity callback and [count = 5] it returns 10. *)
Theorem sum_callback_results_spec {H} (c : int_callback_t H) (count : Z)
    (w : world H) :
  (let (rs, h) := run_calls c (seqZ 0 count) (host w) in
   sum_callback_results c count w =
     (double_sum rs,
      World h (log w ++ zip_with (CallI "callback") (seqZ 0 count) rs))
   /\ (forall g : Z -> Z, c = pure1 g -> rs = map g (seqZ 0 count)))
  /\ (count <= 0 -> sum_callback_results c count w = (0%float, w))
  /\ fst (sum_callback_results (pure1 (fun i => i)) 5 w) = 10%float.
Proof.
  split; [|split].
  - unfold sum_callback_results, for_lt, invoke_int.
    rewrite (for_loop_invoke (CallI "callback") c (fun i => i)
               (fun acc r => (acc + double_of_int r)%float)) by done.
    rewrite Z.sub_0_r.
    replace (map (fun i : Z => i) (seqZ 0 count)) with (seqZ 0 count)
      by (symmetry; apply List.map_id).
    destruct (run_calls c (seqZ 0 count) (host w)) as [rs h] eqn:Hrs.
    split; [done|].
    intros g ->. rewrite run_calls_pure in Hrs. by injection Hrs as <- _.
  - intros Hc. by apply for_lt_empty.
  - reflexivity.
Qed.

(** A run of C5: [count = -3]. *)
Lemma sum_callback_results_witness :
  sum_callback_results (pure1 (fun i => i * i)) (-3) (World tt []) =
    (0%float, World tt []).
Proof.
  apply (proj1 (proj2 (sum_callback_results_spec (pure1 (fun i => i * i)) (-3)
                         (World tt [])))).
  lia.
Defined.

(** ** Result validation *)

(** C4: [call_with_validation] invokes the callback once; when the result is
    NaN or an infinity it prints the diagnostic on stderr and returns -1,
    otherwise it returns the result unchanged; in particular a finite result
    is returned as it is. *)
Theorem call_with_validation_spec {H} (f : double_callback_t H) (v : float)
    (w : world H) :
  (let (r, h) := f v (host w) in
   call_with_validation f v w =
     match classify r with
     | NaN | PInf | NInf =>
         ((-1)%float,
          World h (log w ++ [CallD "callback" v r;
                             Stderr "C: Callback returned invalid result\n"]))
     | _ => (r, World h (log w ++ [CallD "callback" v r]))
     end)
  /\ (is_finite (fst (f v (host w))) = true ->
      fst (call_with_validation f v w) = fst (f v (host w))).
Proof.
  unfold call_with_validation. run_bridge.
  destruct (f v (host w)) as [r h]. simpl.
  rewrite invalid_classify. split.
  - destruct (classify r); simpl; by rewrite <- ?app_assoc.
  - unfold is_finite. rewrite invalid_classify.
    by destruct (classify r).
Qed.

(** A run of C4: the finite result 42. *)
Lemma call_with_validation_witness :
  fst (call_with_validation (pure1 test_double_function) 21 (World tt []))
  = 42%float.
Proof.
  apply (proj2 (call_with_validation_spec (pure1 test_double_function) 21
                  (World tt []))).
  reflexivity.
Defined.

(** * Further properties of the code *)

(** ** Array mapping: the [length] argument against the buffer *)

(** X1: with [0 <= length <= size of the buffer] and a callback that leaves
    the buffer as it finds it, [map_array] invokes the callback on the
    first [length] elements only, in ascending order, stores their results
    in place and leaves the elements from index [length] on untouched. *)
Theorem map_array_prefix {H} (f : double_callback_t (H * list float))
    (B : list float) (n : nat) (h : H) (lg : list event) :
  preserves_buffer f ->
  (n <= length B)%nat ->
  let (rs, h') := run_buffer_calls f [] (take n B) (drop n B) h in
  map_array f (Z.of_nat n) (World (h, B) lg) =
    (Some tt,
     World (h', rs ++ drop n B)
       (lg ++ Stdout "C: Mapping over array of %d elements\n"
                [AI (Z.of_nat n)]
           :: zip_with (CallD "callback") (take n B) rs))
  /\ length rs = n
  /\ (forall g : double_callback_t H,
        f = framed g -> (rs, h') = run_calls g (take n B) h).
Proof.
  intros Hf Hn.
  pose proof (run_buffer_calls_length f (take n B) (drop n B) [] h) as Hlen.
  pose proof (map_array_loop f (Z.of_nat n) (drop n B) Hf (take n B) [] 0 h
                (lg ++ [Stdout "C: Mapping over array of %d elements\n"
                          [AI (Z.of_nat n)]])) as Hloop.
  rewrite length_take_le in Hloop, Hlen by lia.
  simpl app in Hloop. rewrite take_drop in Hloop.
  destruct (run_buffer_calls f [] (take n B) (drop n B) h) as [rs h'] eqn:Hrun.
  split; [|split].
  - unfold map_array, for_lt. unfold bind at 1. unfold printf, emit.
    cbn [host log]. rewrite Z.sub_0_r, Nat2Z.id.
    rewrite Hloop by (simpl; lia). by rewrite <- app_assoc.
  - exact Hlen.
  - intros g ->. by rewrite run_buffer_calls_framed in Hrun.
Qed.

(** A run of X1: the first two of three elements. *)
Lemma map_array_prefix_witness :
  map_array (pure1 test_double_function) 2 (World (tt, [1; 2; 3]%float) []) =
    (Some tt,
     World (tt, [2; 4; 3]%float)
       [Stdout "C: Mapping over array of %d elements\n" [AI 2];
        CallD "callback" 1 2; CallD "callback" 2 4]).
Proof.
  pose proof (map_array_prefix (H:=unit) (pure1 test_double_function)
                [1; 2; 3]%float 2 tt [] ltac:(by intros x s)
                ltac:(simpl; lia)) as Hs.
  vm_compute run_buffer_calls in Hs. exact (proj1 Hs).
Defined.

(** X2: [map_array] does not check [length] against the buffer: with
    [length] above the buffer's size (and a callback that leaves the buffer
    as it finds it) it invokes the callback on every element, in ascending
    order, stores the results, and then accesses the element one past the
    end, which is undefined in C ([None] in the model). *)
Theorem map_array_out_of_bounds {H} (f : double_callback_t (H * list float))
    (B : list float) (length : Z) (h : H) (lg : list event) :
  preserves_buffer f ->
  Z.of_nat (List.length B) < length ->
  let (rs, h') := run_buffer_calls f [] B [] h in
  map_array f length (World (h, B) lg) =
    (None,
     World (h', rs)
       (lg ++ Stdout "C: Mapping over array of %d elements\n" [AI length]
           :: zip_with (CallD "callback") B rs)).
Proof.
  intros Hf Hn.
  pose proof (map_array_loop_overrun f length
                (Z.to_nat length - List.length B - 1) Hf B [] 0 h
                (lg ++ [Stdout "C: Mapping over array of %d elements\n"
                          [AI length]])) as Hloop.
  simpl app in Hloop.
  destruct (run_buffer_calls f [] B [] h) as [rs h'].
  unfold map_array, for_lt. unfold bind at 1. unfold printf, emit.
  cbn [host log]. rewrite Z.sub_0_r.
  replace (Z.to_nat length)
    with (List.length B + S (Z.to_nat length - List.length B - 1))%nat by lia.
  rewrite Hloop by (simpl; lia). by rewrite <- app_assoc.
Qed.

(** A run of X2: [length = 3] on two elements. *)
Lemma map_array_out_of_bounds_witness :
  map_array (pure1 test_double_function) 3 (World (tt, [1; 2]%float) []) =
    (None,
     World (tt, [2; 4]%float)
       [Stdout "C: Mapping over array of %d elements\n" [AI 3];
        CallD "callback" 1 2; CallD "callback" 2 4]).
Proof.
  pose proof (map_array_out_of_bounds (H:=unit) (pure1 test_double_function)
                [1; 2]%float 3 tt [] ltac:(by intros x s)
                ltac:(simpl; lia)) as Hs.
  vm_compute run_buffer_calls in Hs. exact Hs.
Defined.

(** With a callback without side effects, the buffer ends as the image of
    its elements and nothing else in the state changes. *)
Lemma map_array_pure {H} (g : float -> float) (B : list float) (h : H)
    (lg : list event) :
  host (snd (map_array (pure1 g) (Z.of_nat (length B)) (World (h, B) lg))) =
  (h, map g B).
Proof.
  pose proof (map_array_loop (pure1 g) (Z.of_nat (length B)) []
                ltac:(by intros x s) B [] 0 h
                (lg ++ [Stdout "C: Mapping over array of %d elements\n"
                          [AI (Z.of_nat (length B))]])) as Hloop.
  rewrite run_buffer_calls_pure in Hloop.
  rewrite !app_nil_r in Hloop. simpl app in Hloop.
  unfold map_array, for_lt. unfold bind at 1. unfold printf, emit.
  cbn [host log]. rewrite Z.sub_0_r, Nat2Z.id.
  by rewrite Hloop by (simpl; lia).
Qed.

(** X3: for callbacks without side effects, mapping [g1] over a buffer and
    then [g2] over the result leaves the same buffer as mapping their
    composition once. *)
Theorem map_array_compose {H} (g1 g2 : float -> float) (B : list float)
    (h : H) (lg lg' : list event) :
  let n := Z.of_nat (length B) in
  let w1 := snd (map_array (pure1 g1) n (World (h, B) lg)) in
  host w1 = (h, map g1 B) /\
  host (snd (map_array (pure1 g2) n w1)) =
  host (snd (map_array (pure1 (fun x => g2 (g1 x))) n (World (h, B) lg'))).
Proof.
  intros n w1.
  assert (host w1 = (h, map g1 B)) as Hw1 by apply map_array_pure.
  split; [exact Hw1|].
  unfold n at 2. rewrite (map_array_pure (fun x => g2 (g1 x))).
  destruct w1 as [s1 lg1]. simpl in Hw1. subst s1.
  unfold n. rewrite <- (length_map g1 B). rewrite map_array_pure.
  by rewrite List.map_map.
Qed.

(** ** Trapezoidal integration: cost, degenerate step counts, NaN *)

Lemma calls_of_app (name : string) (evs1 evs2 : list event) :
  calls_of name (evs1 ++ evs2) = (calls_of name evs1 + calls_of name evs2)%nat.
Proof.
  induction evs1 as [|ev evs1 IH]; [done|].
  destruct ev as [| |n ? ?| | | | |]; simpl; try done.
  destruct (String.eqb n name); simpl; lia.
Qed.

Lemma divisions_app (evs1 evs2 : list event) :
  divisions (evs1 ++ evs2) = (divisions evs1 + divisions evs2)%nat.
Proof.
  induction evs1 as [|ev evs1 IH]; [done|]. destruct ev; simpl; lia.
Qed.

Lemma outputs_app (evs1 evs2 : list event) :
  outputs (evs1 ++ evs2) = (outputs evs1 + outputs evs2)%nat.
Proof.
  induction evs1 as [|ev evs1 IH]; [done|]. destruct ev; simpl; lia.
Qed.

Lemma calls_of_zip (name : string) (xs rs : list float) :
  length rs = length xs ->
  calls_of name (zip_with (CallD name) xs rs) = length xs
  /\ divisions (zip_with (CallD name) xs rs) = 0%nat
  /\ outputs (zip_with (CallD name) xs rs) = 0%nat.
Proof.
  revert rs. induction xs as [|x xs IH]; intros [|r rs] Hlen; try done.
  simpl in *. rewrite String.eqb_refl.
  destruct (IH rs) as (-> & -> & ->); [lia|done].
Qed.

Lemma sample_points_length (a h : float) (steps : Z) :
  length (sample_points a h steps) = Z.to_nat (steps - 1).
Proof. unfold sample_points. by rewrite length_map, length_seqZ. Qed.

(** X4: for [steps >= 1], [integrate] invokes the callback exactly
    [steps + 1] times, executes two divisions and prints nothing. *)
Theorem integrate_invocations {H} (f : double_callback_t H) (a b : float)
    (steps : Z) (w : world H) :
  1 <= steps ->
  exists evs,
    log (snd (integrate f a b steps w)) = log w ++ evs /\
    calls_of "function" evs = Z.to_nat (steps + 1) /\
    divisions evs = 2%nat /\
    outputs evs = 0%nat.
Proof.
  intros Hsteps.
  pose proof (integrate_run f a b steps w) as Hrun. cbv zeta in Hrun.
  set (h := ((b - a) / double_of_int steps)%float) in *.
  destruct (f a (host w)) as [ra h1]. destruct (f b h1) as [rb h2].
  pose proof (run_calls_length f (sample_points a h steps) h2) as Hlen.
  destruct (run_calls f (sample_points a h steps) h2) as [rs h3].
  simpl in Hlen. rewrite Hrun. simpl.
  eexists. split; [reflexivity|].
  destruct (calls_of_zip "function" (sample_points a h steps) rs Hlen)
    as (Hc & Hd & Ho).
  simpl. rewrite Hc, Hd, Ho, sample_points_length. repeat split; lia.
Qed.

(** A run of X4: four steps, five invocations. *)
Lemma integrate_invocations_witness :
  exists evs,
    log (snd (integrate (pure1 test_double_function) 0 1 4 (World tt []))) =
      [] ++ evs /\
    calls_of "function" evs = 5%nat /\ divisions evs = 2%nat /\
    outputs evs = 0%nat.
Proof.
  apply (integrate_invocations (pure1 test_double_function) 0 1 4 (World tt [])).
  lia.
Defined.


(** X5: [integrate] does not reject [steps <= 0]: the loop does not run, the
    callback is invoked on [a] and on [b] only, and the result is
    [(f(a) + f(b)) / 2 * ((b - a) / steps)], where for [steps = 0] the
    division is by zero. *)
Theorem integrate_nonpositive_steps {H} (f : double_callback_t H) (a b : float)
    (steps : Z) (w : world H) :
  steps <= 0 ->
  let (ra, h1) := f a (host w) in
  let (rb, h2) := f b h1 in
  integrate f a b steps w =
    (((ra + rb) / 2 * ((b - a) / double_of_int steps))%float,
     World h2 (log w ++ [Div (b - a) (double_of_int steps);
                         CallD "function" a ra;
                         CallD "function" b rb;
                         Div (ra + rb) 2])).
Proof.
  intros Hsteps.
  pose proof (integrate_run f a b steps w) as Hrun. cbv zeta in Hrun.
  unfold sample_points in Hrun. rewrite seqZ_nil in Hrun by lia.
  simpl in Hrun.
  destruct (f a (host w)) as [ra h1]. by destruct (f b h1) as [rb h2].
Qed.

(** A run of X5: [steps = 0] gives [1 * (1 / 0)], infinity. *)
Lemma integrate_nonpositive_steps_witness :
  integrate (pure1 test_double_function) 0 1 0 (World tt []) =
    (infinity,
     World tt [Div 1 0; CallD "function" 0 0; CallD "function" 1 2; Div 2 2]).
Proof.
  apply (integrate_nonpositive_steps (pure1 test_double_function) 0 1 0
           (World tt [])).
  lia.
Defined.


(** *** NaN in binary64 arithmetic *)

Lemma Prim2SF_nan : Prim2SF nan = S754_nan.
Proof. vm_compute. reflexivity. Qed.

Lemma is_nan_eq (x : float) : is_nan x = true -> x = nan.
Proof.
  rewrite is_nan_SF. intros Hx. apply Prim2SF_inj. rewrite Prim2SF_nan.
  by destruct (Prim2SF x).
Qed.

Lemma sub_nan_l (q : float) : (nan - q)%float = nan.
Proof. apply Prim2SF_inj. by rewrite sub_spec, Prim2SF_nan. Qed.

Lemma sub_nan_r (x : float) : (x - nan)%float = nan.
Proof.
  apply Prim2SF_inj. rewrite sub_spec, Prim2SF_nan. by destruct (Prim2SF x).
Qed.

Lemma div_nan_r (x : float) : (x / nan)%float = nan.
Proof.
  apply Prim2SF_inj. rewrite div_spec, Prim2SF_nan. by destruct (Prim2SF x).
Qed.

Lemma div_nan_l (x : float) : (nan / x)%float = nan.
Proof. apply Prim2SF_inj. by rewrite div_spec, Prim2SF_nan. Qed.

Lemma add_nan_l (x : float) : (nan + x)%float = nan.
Proof. apply Prim2SF_inj. by rewrite add_spec, Prim2SF_nan. Qed.

Lemma add_nan_r (x : float) : (x + nan)%float = nan.
Proof.
  apply Prim2SF_inj. rewrite add_spec, Prim2SF_nan. by destruct (Prim2SF x).
Qed.

Lemma mul_nan_l (x : float) : (nan * x)%float = nan.
Proof. apply Prim2SF_inj. by rewrite mul_spec, Prim2SF_nan. Qed.

Lemma nan_guard : (abs nan <? 1e-10)%float = false.
Proof. reflexivity. Qed.

Lemma mul_nan_r (x : float) : (x * nan)%float = nan.
Proof.
  apply Prim2SF_inj. rewrite mul_spec, Prim2SF_nan. by destruct (Prim2SF x).
Qed.

Lemma fold_add_nan (rs : list float) : fold_left PrimFloat.add rs nan = nan.
Proof. induction rs as [|r rs IH]; [done|]. simpl. by rewrite add_nan_l. Qed.

Lemma fold_add_exists_nan (rs : list float) (s : float) :
  Exists (fun r => is_nan r = true) rs -> fold_left PrimFloat.add rs s = nan.
Proof.
  intros Hex. revert s. induction Hex as [r rs Hr|r rs _ IH]; intros s; simpl.
  - apply is_nan_eq in Hr. subst r. by rewrite add_nan_r, fold_add_nan.
  - apply IH.
Qed.

(** X6: NaN propagates through [integrate]: if a bound is NaN, or the
    callback returns NaN on [a], on [b] or on any interior sample point, the
    result is NaN. *)
Theorem integrate_nan_propagates {H} (f : double_callback_t H) (a b : float)
    (steps : Z) (w : world H) :
  let h := ((b - a) / double_of_int steps)%float in
  let (ra, h1) := f a (host w) in
  let (rb, h2) := f b h1 in
  let (rs, h3) := run_calls f (sample_points a h steps) h2 in
  is_nan a = true \/ is_nan b = true \/
  is_nan ra = true \/ is_nan rb = true \/
  Exists (fun r => is_nan r = true) rs ->
  is_nan (fst (integrate f a b steps w)) = true.
Proof.
  intros h.
  pose proof (integrate_run f a b steps w) as Hrun. cbv zeta in Hrun.
  fold h in Hrun.
  destruct (f a (host w)) as [ra h1]. destruct (f b h1) as [rb h2].
  destruct (run_calls f (sample_points a h steps) h2) as [rs h3].
  intros Hnan. rewrite Hrun. simpl fst.
  assert ((trapezoid_sum ra rb rs * h)%float = nan) as ->; [|done].
  unfold trapezoid_sum.
  destruct Hnan as [Ha|[Hb|[Hra|[Hrb|Hrs]]]].
  - apply is_nan_eq in Ha. unfold h. subst a.
    by rewrite sub_nan_r, div_nan_l, mul_nan_r.
  - apply is_nan_eq in Hb. unfold h. subst b.
    by rewrite sub_nan_l, div_nan_l, mul_nan_r.
  - apply is_nan_eq in Hra. subst ra.
    by rewrite add_nan_l, div_nan_l, fold_add_nan, mul_nan_l.
  - apply is_nan_eq in Hrb. subst rb.
    by rewrite add_nan_r, div_nan_l, fold_add_nan, mul_nan_l.
  - by rewrite (fold_add_exists_nan rs _ Hrs), mul_nan_l.
Qed.

(** A run of X6: a callback that always returns NaN. *)
Lemma integrate_nan_propagates_witness :
  is_nan (fst (integrate (pure1 (fun _ => nan)) 0 1 4 (World tt []))) = true.
Proof.
  apply (integrate_nan_propagates (pure1 (fun _ => nan)) 0 1 4 (World tt [])).
  right. right. left. reflexivity.
Defined.


(** ** Newton's method: the other ways out of the loop *)

(** X7: with [max_iter <= 0], negative values included, [find_root] returns
    [x0] and invokes neither callback. *)
Theorem find_root_nonpositive_iterations {H} (f df : double_callback_t H)
    (x0 : float) (max_iter : Z) (w : world H) :
  max_iter <= 0 -> find_root f df x0 max_iter w = (x0, w).
Proof. intros Hm. unfold find_root. apply for_lt_empty. lia. Qed.

(** A run of X7: [max_iter = -1]. *)
Lemma find_root_nonpositive_iterations_witness :
  find_root (pure1 test_double_function) (pure1 (fun _ => 2%float)) 7 (-1)
    (World tt []) = (7%float, World tt []).
Proof.
  apply (find_root_nonpositive_iterations (pure1 test_double_function)
           (pure1 (fun _ => 2%float)) 7 (-1) (World tt [])).
  lia.
Defined.


Lemma SFsub_self_finite (s : bool) (m : positive) (e : Z) :
  SFsub prec emax (S754_finite s m e) (S754_finite s m e) = S754_zero false.
Proof.
  unfold SFsub. rewrite Z.min_id. unfold shl_align.
  rewrite !Z.sub_diag. reflexivity.
Qed.

(** At an exact root the Newton step does not move a finite iterate. *)
Lemma root_step_converges (x fx dfx : float) :
  is_finite x = true ->
  is_zero fx = true ->
  (abs dfx <? 1e-10)%float = false ->
  is_nan dfx = false ->
  (abs (x - fx / dfx - x) <? 1e-10)%float = true.
Proof.
  rewrite is_finite_SF, is_zero_SF, is_nan_SF.
  rewrite !ltb_spec, !abs_spec, !sub_spec, div_spec, Prim2SF_eps.
  unfold SF64sub, SF64div.
  destruct (Prim2SF x) as [sx|sx| |sx mx ex]; try done;
    destruct (Prim2SF fx) as [sf|sf| |sf mf ef]; try done;
    destruct (Prim2SF dfx) as [sd|sd| |sd md ed]; try done; intros _ _ Hg _.
  - by destruct sx, sf, sd.
  - by destruct sx, sf, sd.
  - cbn [SFdiv].
    change (SFsub prec emax (S754_finite sx mx ex) (S754_zero (xorb sf sd)))
      with (S754_finite sx mx ex).
    by rewrite SFsub_self_finite.
  - cbn [SFdiv].
    change (SFsub prec emax (S754_finite sx mx ex) (S754_zero (xorb sf sd)))
      with (S754_finite sx mx ex).
    by rewrite SFsub_self_finite.
Qed.

Section FindRootMore.
Context {H : Type} (f df : double_callback_t H) (max_iter : Z).

(** X8: when the loop runs [max_iter] iterations without a [break],
    [find_root] returns the iterate the last of them computed, with nothing
    to tell it from a converged result. *)
Theorem find_root_exhausted (x0 : float) (w0 : world H) (x : float)
    (w : world H) :
  iterates f df max_iter 0 x0 w0 max_iter x w ->
  find_root f df x0 max_iter w0 = (x, w).
Proof.
  intros Hit. unfold find_root, for_lt.
  rewrite (iterates_for_loop _ _ _ _ _ _ _ _ _ Hit).
  by rewrite Z.sub_diag.
Qed.

(** X9: started on a finite [x0] where [f] returns a zero and [df] returns a
    number that is neither NaN nor below [1e-10] in magnitude, [find_root]
    stops in the first iteration and returns [x0] itself, after one
    invocation of each callback. *)
Theorem find_root_at_root (x0 : float) (w : world H) :
  1 <= max_iter ->
  is_finite x0 = true ->
  let (fx, h1) := f x0 (host w) in
  let (dfx, h2) := df x0 h1 in
  is_zero fx = true ->
  (abs dfx <? 1e-10)%float = false ->
  is_nan dfx = false ->
  find_root f df x0 max_iter w =
    (x0, World h2 (log w ++ [CallD "f" x0 fx; CallD "df" x0 dfx; Div fx dfx])).
Proof.
  intros Hm Hx.
  pose proof (find_root_body_run f df 0 x0 w) as Hbody.
  destruct (f x0 (host w)) as [fx h1]. destruct (df x0 h1) as [dfx h2].
  intros Hfx Hg Hn. rewrite Hg in Hbody.
  rewrite (root_step_converges x0 fx dfx Hx Hfx Hg Hn) in Hbody.
  apply (find_root_break f df max_iter x0 w 0 x0 w); [apply iterates_here|lia|done].
Qed.

(** Once the iterate is NaN it stays NaN. *)
Lemma find_root_loop_nan :
  forall (n : nat) (i : Z) (w : world H),
    fst (for_loop n i max_iter (find_root_body f df) nan w) = nan.
Proof.
  induction n as [|n IH]; intros i w; [done|].
  cbn [for_loop]. destruct (i <? max_iter); [|done].
  unfold bind at 1. rewrite find_root_body_run.
  destruct (f nan (host w)) as [fx h1]. destruct (df nan h1) as [dfx h2].
  destruct (abs dfx <? 1e-10)%float; [done|].
  rewrite !sub_nan_l. rewrite nan_guard. apply IH.
Qed.

(** X10: NaN propagates through [find_root]: if [x0] is NaN, or if
    [max_iter >= 1] and [df] returns NaN on [x0], the result is NaN. *)
Theorem find_root_nan_propagates (x0 : float) (w : world H) :
  (is_nan x0 = true -> is_nan (fst (find_root f df x0 max_iter w)) = true)
  /\ (1 <= max_iter ->
      is_nan (fst (df x0 (snd (f x0 (host w))))) = true ->
      is_nan (fst (find_root f df x0 max_iter w)) = true).
Proof.
  split.
  - intros Hx. apply is_nan_eq in Hx. subst x0.
    unfold find_root, for_lt. by rewrite find_root_loop_nan.
  - intros Hm Hd. unfold find_root, for_lt.
    replace (Z.to_nat (max_iter - 0)) with (S (Z.to_nat (max_iter - 1))) by lia.
    cbn [for_loop].
    replace (0 <? max_iter) with true by (symmetry; apply Z.ltb_lt; lia).
    unfold bind at 1. rewrite find_root_body_run.
    destruct (f x0 (host w)) as [fx h1]. simpl in Hd.
    destruct (df x0 h1) as [dfx h2]. simpl in Hd.
    apply is_nan_eq in Hd. subst dfx.
    rewrite nan_guard, div_nan_r, sub_nan_r, sub_nan_l, nan_guard.
    by rewrite find_root_loop_nan.
Qed.

(** What the loop adds to the log, counted. *)
Lemma find_root_loop_counts :
  forall (n : nat) (i : Z) (x : float) (w : world H),
  exists evs,
    log (snd (for_loop n i max_iter (find_root_body f df) x w)) = log w ++ evs /\
    calls_of "f" evs = calls_of "df" evs /\
    (calls_of "df" evs <= n)%nat /\
    (divisions evs <= calls_of "df" evs)%nat /\
    outputs evs = 0%nat.
Proof.
  induction n as [|n IH]; intros i x w.
  - exists []. simpl. by rewrite app_nil_r.
  - cbn [for_loop]. destruct (i <? max_iter).
    2:{ exists []. simpl. rewrite app_nil_r. repeat split; lia. }
    unfold bind at 1. rewrite find_root_body_run.
    destruct (f x (host w)) as [fx h1]. destruct (df x h1) as [dfx h2].
    destruct (abs dfx <? 1e-10)%float.
    { eexists. split; [reflexivity|]. simpl. repeat split; lia. }
    destruct (abs (x - fx / dfx - x) <? 1e-10)%float.
    { eexists. split; [reflexivity|]. simpl. repeat split; lia. }
    destruct (IH (i + 1) (x - fx / dfx)%float
                (World h2 (log w ++ [CallD "f" x fx; CallD "df" x dfx;
                                     Div fx dfx])))
      as (evs & Hlog & Hc & Hn & Hd & Ho).
    eexists. split.
    + rewrite Hlog. simpl. rewrite <- app_assoc. reflexivity.
    + rewrite !calls_of_app, divisions_app, outputs_app. simpl.
      repeat split; lia.
Qed.

(** X11: [find_root] invokes [f] and [df] equally often, at most [max_iter]
    times each, executes at most one division per invocation of [df], and
    prints nothing. *)
Theorem find_root_invocations (x0 : float) (w : world H) :
  exists evs,
    log (snd (find_root f df x0 max_iter w)) = log w ++ evs /\
    calls_of "f" evs = calls_of "df" evs /\
    (Z.of_nat (calls_of "df" evs) <= Z.max 0 max_iter) /\
    (divisions evs <= calls_of "df" evs)%nat /\
    outputs evs = 0%nat.
Proof.
  destruct (find_root_loop_counts (Z.to_nat (max_iter - 0)) 0 x0 w)
    as (evs & Hlog & Hc & Hn & Hd & Ho).
  exists evs. repeat split; try done. lia.
Qed.
(** Reaching a state does not depend on how far the cap is above it. *)
Lemma iterates_cap (max_iter' : Z) (i : Z) (x : float) (w : world H)
    (j : Z) (x' : float) (w' : world H) :
  max_iter <= max_iter' ->
  iterates f df max_iter i x w j x' w' ->
  iterates f df max_iter' i x w j x' w'.
Proof.
  intros Hle. induction 1 as [|i x w x1 w1 j x' w' Hi Hbody _ IH].
  - apply iterates_here.
  - eapply iterates_next; [lia|exact Hbody|exact IH].
Qed.

(** X12: [max_iter] is only a cap: when [find_root] leaves its loop by a
    [break] within [max_iter] iterations, every larger [max_iter] gives the
    same result and the same invocations. *)
Theorem find_root_cap (max_iter' : Z) (x0 : float) (w0 : world H) (i : Z)
    (x : float) (w : world H) (y : float) (w' : world H) :
  iterates f df max_iter 0 x0 w0 i x w ->
  i < max_iter ->
  find_root_body f df i x w = (Break y, w') ->
  max_iter <= max_iter' ->
  find_root f df x0 max_iter' w0 = find_root f df x0 max_iter w0.
Proof.
  intros Hit Hi Hbody Hle.
  rewrite (find_root_break f df max_iter x0 w0 i x w y w' Hit Hi Hbody).
  apply (find_root_break f df max_iter' x0 w0 i x w y w');
    [by apply iterates_cap|lia|exact Hbody].
Qed.
End FindRootMore.

(** A run of X8: one iteration allowed, none converges. *)
Lemma find_root_exhausted_witness :
  find_root (pure1 (fun x => x - 42)%float) (pure1 (fun _ => 1%float)) 0 1
    (World tt []) =
  (42%float, World tt [CallD "f" 0 (-42); CallD "df" 0 1; Div (-42) 1]).
Proof.
  apply (find_root_exhausted (pure1 (fun x => x - 42)%float)
           (pure1 (fun _ => 1%float)) 1 0 (World tt [])).
  eapply iterates_next; [lia | reflexivity | apply iterates_here].
Defined.


(** A run of X9: [x - 42] started on 42. *)
Lemma find_root_at_root_witness :
  find_root (pure1 (fun x => x - 42)%float) (pure1 (fun _ => 1%float)) 42 10
    (World tt []) =
  (42%float, World tt [CallD "f" 42 0; CallD "df" 42 1; Div 0 1]).
Proof.
  refine (find_root_at_root (pure1 (fun x => x - 42)%float)
            (pure1 (fun _ => 1%float)) 10 42 (World tt [])
            _ eq_refl eq_refl eq_refl eq_refl).
  lia.
Defined.


(** Runs of X10: a NaN start, and a NaN derivative. *)
Lemma find_root_nan_propagates_witness :
  is_nan (fst (find_root (pure1 test_double_function)
                 (pure1 (fun _ => 2%float)) nan 5 (World tt []))) = true
  /\ is_nan (fst (find_root (pure1 test_double_function)
                    (pure1 (fun _ => nan)) 1 5 (World tt []))) = true.
Proof.
  split.
  - apply (proj1 (find_root_nan_propagates (pure1 test_double_function)
                    (pure1 (fun _ => 2%float)) 5 nan (World tt []))).
    reflexivity.
  - apply (proj2 (find_root_nan_propagates (pure1 test_double_function)
                    (pure1 (fun _ => nan)) 5 1 (World tt []))).
    + lia.
    + reflexivity.
Defined.


(** A run of X12: [x - 42] from 0 converges in the second iteration, with a
    cap of 10 as with a cap of 1000. *)
Lemma find_root_cap_witness :
  find_root (pure1 (fun x => x - 42)%float) (pure1 (fun _ => 1%float)) 0 1000
    (World tt []) =
  find_root (pure1 (fun x => x - 42)%float) (pure1 (fun _ => 1%float)) 0 10
    (World tt []).
Proof.
  refine (find_root_cap (pure1 (fun x => x - 42)%float)
            (pure1 (fun _ => 1%float)) 10 1000 0 (World tt []) 1 42
            (World tt [CallD "f" 0 (-42); CallD "df" 0 1; Div (-42) 1])
            42
            (World tt [CallD "f" 0 (-42); CallD "df" 0 1; Div (-42) 1;
                       CallD "f" 42 0; CallD "df" 42 1; Div 0 1])
            _ _ eq_refl _).
  - eapply iterates_next; [lia | reflexivity | apply iterates_here].
  - lia.
  - lia.
Defined.

(** ** Repeated-call summation, one index more *)

Lemma run_calls_app {H A R} (cb : A -> H -> R * H) (xs ys : list A) (h : H) :
  run_calls cb (xs ++ ys) h =
  let (rs1, h1) := run_calls cb xs h in
  let (rs2, h2) := run_calls cb ys h1 in
  (rs1 ++ rs2, h2).
Proof.
  revert h. induction xs as [|x xs IH]; intros h; simpl.
  - by destruct (run_calls cb ys h).
  - destruct (cb x h) as [r h1]. rewrite IH.
    destruct (run_calls cb xs h1) as [rs1 h2].
    by destruct (run_calls cb ys h2).
Qed.

(** X13: for [count >= 0], [sum_callback_results] on [count + 1] does what
    it does on [count], then invokes the callback once more, on [count], and
    adds the converted result to the sum. *)
Theorem sum_callback_results_step {H} (c : int_callback_t H) (count : Z)
    (w : world H) :
  0 <= count ->
  sum_callback_results c (count + 1) w =
    (let (sum, w') := sum_callback_results c count w in
     let (r, h) := c count (host w') in
     ((sum + double_of_int r)%float,
      World h (log w' ++ [CallI "callback" count r]))).
Proof.
  intros Hc. unfold sum_callback_results, for_lt, invoke_int.
  rewrite !(for_loop_invoke (CallI "callback") c (fun i => i)
              (fun acc r => (acc + double_of_int r)%float)) by done.
  rewrite !Z.sub_0_r.
  replace (map (fun i : Z => i) (seqZ 0 (count + 1)))
    with (seqZ 0 count ++ [count]).
  2:{ rewrite List.map_id, seqZ_app by lia.
      f_equal; unfold seqZ; simpl; f_equal; lia. }
  replace (map (fun i : Z => i) (seqZ 0 count)) with (seqZ 0 count)
    by (symmetry; apply List.map_id).
  rewrite run_calls_app.
  pose proof (run_calls_length c (seqZ 0 count) (host w)) as Hlen.
  destruct (run_calls c (seqZ 0 count) (host w)) as [rs h1]. simpl in Hlen.
  simpl. destruct (c count h1) as [r h2].
  rewrite fold_left_app, zip_with_app by done.
  simpl. by rewrite app_assoc.
Qed.

(** A run of X13: the identity callback, from two indices to three. *)
Lemma sum_callback_results_step_witness :
  sum_callback_results (pure1 (fun i => i)) (2 + 1) (World tt []) =
    (3%float,
     World tt [CallI "callback" 0 0; CallI "callback" 1 1;
               CallI "callback" 2 2]).
Proof.
  apply (sum_callback_results_step (pure1 (fun i => i)) 2 (World tt [])).
  lia.
Defined.

(** ** Result validation and the remaining primitives *)

(** X14: whatever the callback returns, [call_with_validation] returns a
    finite double, never NaN and never an infinity. *)
Theorem call_with_validation_finite {H} (f : double_callback_t H) (v : float)
    (w : world H) :
  is_finite (fst (call_with_validation f v w)) = true.
Proof.
  unfold call_with_validation. run_bridge.
  destruct (f v (host w)) as [r h]. simpl.
  destruct (is_nan r || is_infinity r) eqn:Hr; simpl; [done|].
  unfold is_finite. by rewrite Hr.
Qed.

(** X15: [call_with_int], [call_simple] and [call_void_callback] are
    pass-throughs: each prints its line, invokes the callback exactly once
    on the given argument, prints its second line and returns what the
    callback returned; the host is left in the state the callback left it
    in. *)
Theorem other_primitives_passthrough {H} (ci : int_callback_t H)
    (cs : simple_callback_t H) (cv : void_callback_t H) (value : Z)
    (w : world H) :
  call_with_int ci value w =
    (let (r, h) := ci value (host w) in
     (r, World h (log w ++ [Stdout "C: Calling callback with %d\n" [AI value];
                            CallI "callback" value r;
                            Stdout "C: Callback returned %d\n" [AI r]])))
  /\ call_simple cs w =
    (let (r, h) := cs (host w) in
     (r, World h (log w ++ [Stdout "C: Calling simple callback\n" [];
                            Call0 "callback" r;
                            Stdout "C: Callback returned %d\n" [AI r]])))
  /\ call_void_callback cv value w =
    (tt, World (cv value (host w))
           (log w ++ [Stdout "C: Calling void callback with %d\n" [AI value];
                      CallV "callback" value;
                      Stdout "C: Void callback completed\n" []])).
Proof.
  repeat split.
  - unfold call_with_int. run_bridge. simpl.
    destruct (ci value (host w)) as [r h]. simpl. by rewrite <- !app_assoc.
  - unfold call_simple, invoke_simple. run_bridge. simpl.
    destruct (cs (host w)) as [r h]. simpl. by rewrite <- !app_assoc.
  - unfold call_void_callback, invoke_void. run_bridge. simpl.
    by rewrite <- !app_assoc.
Qed.

(** [self_test] passes: both results it prints are the 42.00 its messages
    expect, each obtained by one invocation of the test function, and the
    host state is untouched. *)
Theorem self_test_passes {H} (w : world H) :
  self_test w =
    (tt,
     World (host w)
       (log w ++
        [Stdout "=== C Callback Library Self-Test ===\n" [];
         Stdout "C: Calling callback with %.2f\n" [AD 21];
         CallD "callback" 21 42;
         Stdout "C: Callback returned %.2f\n" [AD 42];
         Stdout "Test 1: %.2f (expected 42.00)\n" [AD 42];
         Stdout "C: Calling callback with %.2f and %.2f\n" [AD 15; AD 27];
         CallDD "callback" 15 27 42;
         Stdout "C: Callback returned %.2f\n" [AD 42];
         Stdout "Test 2: %.2f (expected 42.00)\n" [AD 42];
         Stdout "Self-test completed\n\n" []])).
Proof.
  unfold self_test, call_with_double, call_with_two_doubles. run_bridge.
  simpl. by rewrite <- !app_assoc.
Qed.

